(** * Word completion from buffer text: matching strategies, dictionary
      parsing and candidate ranking

    Shallow embedding of [cuda_complete_from_text/__init__.py].

    Python [str] values are modelled as lists of characters ([ascii]);
    character classification ([upper], [lower], whitespace) follows Python
    on the ASCII range.  Python [int] values are [Z]; positions produced by
    [range] are [nat].  A Python exception is a [Raise] in the [result]
    monad, a bare [return] is [None]. *)

From Stdlib Require Import ZArith Ascii String DecimalString.
From stdpp Require Import base option list sorting gmap strings.

Local Open Scope Z_scope.

(** ** Strings *)

Abbreviation str := (list ascii).

Definition lit (s : string) : str := list_ascii_of_string s.

Definition code (c : ascii) : N := N_of_ascii c.

Definition is_AZ (c : ascii) : bool := ((65 <=? code c) && (code c <=? 90))%N.
Definition is_az (c : ascii) : bool := ((97 <=? code c) && (code c <=? 122))%N.
Definition is_digit (c : ascii) : bool := ((48 <=? code c) && (code c <=? 57))%N.

(** [str.isspace] on the ASCII range: TAB, LF, VT, FF, CR, FS, GS, RS, US
    and the blank. *)
Definition is_space (c : ascii) : bool :=
  (((9 <=? code c) && (code c <=? 13)) || ((28 <=? code c) && (code c <=? 32)))%N.

Definition upper_char (c : ascii) : ascii :=
  if is_az c then ascii_of_N (code c - 32) else c.
Definition lower_char (c : ascii) : ascii :=
  if is_AZ c then ascii_of_N (code c + 32) else c.

(** [s.upper()], [s.lower()], on the ASCII range *)
Definition upper (s : str) : str := upper_char <$> s.
Definition lower (s : str) : str := lower_char <$> s.

Definition len {A} (l : list A) : Z := Z.of_nat (length l).

(** [s.startswith(p)] *)
Fixpoint startswith (s p : str) : bool :=
  match p, s with
  | [], _ => true
  | _ :: _, [] => false
  | b :: p', a :: s' => bool_decide (a = b) && startswith s' p'
  end.

(** Position of the first occurrence of [ch] in [s]. *)
Fixpoint index_of (ch : ascii) (s : str) : option nat :=
  match s with
  | [] => None
  | c :: rest => if bool_decide (c = ch) then Some 0%nat else S <$> index_of ch rest
  end.

(** [s.find(ch, start)] for a one-character [ch]: a negative [start] counts
    from the end of [s]; the answer is [-1] when [ch] does not occur at or
    after [start]. *)
Definition find (s : str) (ch : ascii) (start : Z) : Z :=
  let start := if start <? 0 then Z.max 0 (start + len s) else start in
  match index_of ch (drop (Z.to_nat start) s) with
  | Some k => start + Z.of_nat k
  | None => -1
  end.

(** [sub in s] for strings. *)
Fixpoint contains (s sub : str) : bool :=
  startswith s sub || match s with [] => false | _ :: s' => contains s' sub end.

(** [s.replace(old, new)] for a non-empty [old]: scanning left to right, an
    occurrence of [old] is replaced and its remaining [skip] characters are
    passed over. *)
Fixpoint replace_go (skip : nat) (s old new : str) : str :=
  match s with
  | [] => []
  | c :: rest =>
      match skip with
      | S k => replace_go k rest old new
      | O =>
          if startswith s old
          then new ++ replace_go (length old - 1) rest old new
          else c :: replace_go 0 rest old new
      end
  end.
Definition replace (s old new : str) : str := replace_go 0 s old new.

Fixpoint drop_while (f : ascii → bool) (s : str) : str :=
  match s with
  | [] => []
  | c :: rest => if f c then drop_while f rest else s
  end.

(** [s.rstrip()] and [s.strip(chars)] for a one-character [chars] *)
Definition rstrip (s : str) : str := reverse (drop_while is_space (reverse s)).
Definition strip_char (ch : ascii) (s : str) : str :=
  let is_ch c := bool_decide (c = ch) in
  reverse (drop_while is_ch (reverse (drop_while is_ch s))).

(** ** Exceptions *)

Inductive exn : Set := IndexError | TypeError | ReError.

Inductive result (A : Type) : Type :=
  | Ok (a : A)
  | Raise (e : exn).
Arguments Ok {A} a.
Arguments Raise {A} e.

Global Instance result_ret : MRet result := @Ok.
Global Instance result_bind : MBind result := λ A B f m,
  match m with Ok a => f a | Raise e => Raise e end.

(** [l[i]] for [i] produced by [range] *)
Definition getitem {A} (l : list A) (i : nat) : result A :=
  match l !! i with Some a => Ok a | None => Raise IndexError end.

(** [for i in range(..): if not body(i): break] followed by [else]: the
    answer is [true] when the [else] branch is reached. *)
Fixpoint for_else (body : nat → result bool) (idx : list nat) : result bool :=
  match idx with
  | [] => Ok true
  | i :: rest => b ← body i; if b : bool then for_else body rest else Ok false
  end.

(** [for i in range(..): if body(i): return True], then [False]. *)
Fixpoint for_any (body : nat → result bool) (idx : list nat) : result bool :=
  match idx with
  | [] => Ok false
  | i :: rest => b ← body i; if b : bool then Ok true else for_any body rest
  end.

(** ** Options (the module-level [option_*] globals) *)

Record Config : Set := {
  option_lexers : str;
  option_min_len : Z;
  option_case_sens : bool;
  option_what_editors : Z;
  option_max_lines : Z;
  option_use_acp : bool;
  option_show_acp_first : bool;
  option_case_split : bool;
  option_underscore_split : bool;
  option_fuzzy : bool
}.

(** ** Match strategies *)

Definition is_plain_match (cfg : Config) (stext sfind : str) : bool :=
  if option_case_sens cfg
  then startswith stext sfind
  else startswith (upper stext) (upper sfind).

(** The [for ch in sfind] loop of [is_fuzzy_match]; [n] is the position of
    the last character found. *)
Fixpoint fuzzy_loop (stext sfind : str) (n : Z) : bool :=
  match sfind with
  | [] => true
  | ch :: rest =>
      let n := find stext ch (n + 1) in
      if n <? 0 then false else fuzzy_loop stext rest n
  end.

Definition is_fuzzy_match (stext sfind : str) : bool :=
  let stext := upper stext in
  let sfind := upper sfind in
  fuzzy_loop stext sfind (-1).

(** [re.findall('.[^A-Z]*', s)]: a segment opens at any character but a
    line feed and runs up to the next capital letter. [cur] is the segment
    being read, if any. *)
Fixpoint findall_camel_go (cur : option str) (s : str) : list str :=
  match s with
  | [] => match cur with Some seg => [seg] | None => [] end
  | c :: rest =>
      match cur with
      | Some seg =>
          if is_AZ c then seg :: findall_camel_go (Some [c]) rest
          else findall_camel_go (Some (seg ++ [c])) rest
      | None =>
          if bool_decide (code c = 10%N) then findall_camel_go None rest
          else findall_camel_go (Some [c]) rest
      end
  end.
Definition findall_camel (s : str) : list str := findall_camel_go None s.

(** [re.findall('[^_]+', s)] *)
Fixpoint findall_words_go (cur : str) (s : str) : list str :=
  match s with
  | [] => match cur with [] => [] | _ => [cur] end
  | c :: rest =>
      if bool_decide (c = "_"%char)
      then match cur with [] => findall_words_go [] rest | _ => cur :: findall_words_go [] rest end
      else findall_words_go (cur ++ [c]) rest
  end.
Definition findall_words (s : str) : list str := findall_words_go [] s.

(** The first loop of [spl_match]. *)
Fixpoint common_len_loop (begin word : str) (idx : list nat) (common_len : nat) : result nat :=
  match idx with
  | [] => Ok common_len
  | i :: rest =>
      b ← getitem begin i;
      w ← getitem word i;
      if bool_decide (b = w) then common_len_loop begin word rest (i + 1)%nat
      else Ok common_len
  end.

Fixpoint spl_match (begin : str) (words : list str) : result bool :=
  match words with
  | [] => Raise IndexError
  | word :: rest =>
      common_len ← common_len_loop begin word (seq 0 (length begin `min` length word)) 0%nat;
      if (0 <? common_len)%nat then
        if (length begin =? common_len)%nat then Ok true
        else if (length words =? 1)%nat then Ok false
        else
          for_any (λ i, spl_match (drop (common_len - i) begin) rest) (seq 0 common_len)
      else Ok false
  end.

(** Lines 80-91 of [is_text_with_begin], entered when [option_case_split]
    holds; [true] stands for reaching [return True]. *)
Definition case_split_path (s begin : str) : result bool :=
  s0 ← getitem s 0;
  b0 ← getitem begin 0;
  if bool_decide (s0 = b0) then
    let searchwords := findall_camel begin in
    let wordwords := findall_camel s in
    let swl := length searchwords in
    let wwl := length wordwords in
    if (swl <=? wwl)%nat then
      for_else (λ i, ww ← getitem wordwords i;
                     sw ← getitem searchwords i;
                     Ok (startswith ww sw)) (seq 0 swl)
    else Ok false
  else Ok false.

(** Lines 93-113, entered when [option_underscore_split] holds. The second
    component is the value of the local [begin] afterwards (it is lowered in
    place when matching is case-insensitive). *)
Definition underscore_split_path (cfg : Config) (s begin : str) : result (bool * str) :=
  let ss := strip_char "_" s in
  if bool_decide ("_"%char ∈ ss) then
    let begin := if option_case_sens cfg then begin else lower begin in
    let ss := if option_case_sens cfg then ss else lower ss in
    let wordwords := findall_words ss in
    let wwl := length wordwords in
    let bl := length begin in
    initials ← (if (bl <=? wwl)%nat then
                  for_else (λ i, b ← getitem begin i;
                                 w ← getitem wordwords i;
                                 w0 ← getitem w 0;
                                 Ok (bool_decide (b = w0))) (seq 0 bl)
                else Ok false);
    if initials : bool then Ok (true, begin)
    else
      m ← spl_match begin wordwords;
      Ok (m, begin)
  else Ok (false, begin).

Definition is_text_with_begin (cfg : Config) (s begin : str) : result bool :=
  if option_fuzzy cfg then Ok (is_fuzzy_match s begin)
  else
    '(hit, begin) ←
      (if option_case_split cfg || option_underscore_split cfg then
         cs ← (if option_case_split cfg then case_split_path s begin else Ok false);
         if cs : bool then Ok (true, begin)
         else if option_underscore_split cfg then underscore_split_path cfg s begin
         else Ok (false, begin)
       else Ok (false, begin));
    if hit : bool then Ok true
    else if option_case_sens cfg then Ok (startswith s begin)
    else Ok (startswith (upper s) (upper begin)).

(** ** Scan pattern *)

Definition dquote : ascii := ascii_of_N 34.
Definition tab : ascii := ascii_of_N 9.

(** [NONWORDS_DEFAULT]; its last character, the ellipsis U+2026, lies outside
    [ascii] and is carried as its three UTF-8 bytes. *)
Definition NONWORDS_DEFAULT : str :=
  lit "-+*=/\()[]{}<>" ++ [dquote] ++ lit "'.,:;~?!@#$%^&|`"
  ++ [ascii_of_N 226; ascii_of_N 128; ascii_of_N 166].

Fixpoint escape_regex (s : str) : str :=
  match s with
  | [] => []
  | ch :: rest =>
      (if bool_decide (ch ∈ lit "$^#-+|.?*()[]{}") then ["\"%char] else []) ++ ch :: escape_regex rest
  end.

(** The [w_content] loop of [get_regex]. *)
Definition w_content (nonwords : str) : str :=
  foldl (λ w_content ch,
           if bool_decide (ch ∉ nonwords) then w_content ++ escape_regex [ch]
           else w_content)
        (lit "\w") NONWORDS_DEFAULT.

(** [str(n)] *)
Definition str_of_int (n : Z) : str := lit (NilZero.string_of_int (Z.to_int n)).

(** The local [repeats] of [get_regex]. *)
Definition repeats (cfg : Config) (begin : str) : Z :=
  Z.max 1 (option_min_len cfg - len begin).

Definition get_regex (cfg : Config) (begin nonwords : str) : str :=
  lit "\$?\b" ++ escape_regex begin ++ lit "[" ++ w_content nonwords
  ++ lit "]{" ++ str_of_int (repeats cfg begin) ++ lit ",}".

(** Line 297 of [get_completions]: the pattern of a request is built from
    [word1[0]]. *)
Definition request_regex (cfg : Config) (word1 nonwords : str) : result str :=
  w0 ← getitem word1 0;
  Ok (get_regex cfg [w0] nonwords).

(** ** The host editor *)

(** What the editor API answers for one tab. *)
Record Editor : Set := {
  ed_lexer_file : option str;   (* get_prop(PROP_LEXER_FILE, '') *)
  ed_lexer_caret : str;         (* get_prop(PROP_LEXER_CARET, '') *)
  ed_tab_title : str;           (* get_prop(PROP_TAB_TITLE) *)
  ed_lines : list str;          (* get_line_count(), get_text_line(y) *)
  ed_text_all : str;            (* get_text_all() *)
  ed_nonword_chars : str        (* appx.get_opt('nonword_chars', ...) *)
}.

(** The tabs that are open, the dictionary files that exist (by file name,
    with the lines [readlines] gives), and the regular-expression engine. *)
Record Host : Type := {
  ed_handles : list Editor;
  acp_file : str → option (list str);
  re_findall : str → str → bool → result (list str)
}.

Definition get_editors (host : Host) (cfg : Config) (ed : Editor) (lexer : str)
  : option (list Editor) :=
  if option_what_editors cfg =? 0 then Some [ed]
  else if option_what_editors cfg =? 1 then Some (ed_handles host)
  else if option_what_editors cfg =? 2 then
    Some (filter (λ e, ed_lexer_file e = Some lexer) (ed_handles host))
  else None.

Definition is_lexer_allowed (cfg : Config) (lex : str) : bool :=
  contains (lit "," ++ option_lexers cfg ++ lit ",") (lit ",*,")
  || contains (lit "," ++ lower (option_lexers cfg) ++ lit ",")
              (lit "," ++ lower (match lex with [] => lit "-" | _ => lex end) ++ lit ",").

Definition isword (nonwords : str) (s : ascii) : bool :=
  bool_decide (s ∉ lit " " ++ [tab] ++ nonwords).

Definition get_words_list (host : Host) (cfg : Config) (ed : Editor) (regex : str)
  : result (list str) :=
  if len (ed_lines ed) >? option_max_lines cfg then Ok []
  else
    let flags := negb (option_case_sens cfg) in
    l ← re_findall host regex (ed_text_all ed) flags;
    Ok (elements (list_to_set l : gset str)).

(** The two [while] loops of [get_word]. *)
Fixpoint scan_left (nonwords s : str) (x0 : nat) : nat :=
  match x0 with
  | O => O
  | S k =>
      match s !! k with
      | Some c => if isword nonwords c then scan_left nonwords s k else x0
      | None => x0
      end
  end.

Fixpoint scan_right (nonwords rest : str) (x0 : nat) : nat :=
  match rest with
  | [] => x0
  | c :: rest' => if isword nonwords c then scan_right nonwords rest' (S x0) else x0
  end.

(** [s[i:j]] for [0 <= i] *)
Definition slice (s : str) (i j : nat) : str := take (j - i) (drop i s).

Definition get_word (nonwords : str) (ed : Editor) (x y : Z) : option (str * str) :=
  if negb ((0 <=? y) && (y <? len (ed_lines ed))) then None
  else
    match ed_lines ed !! Z.to_nat y with
    | None => None
    | Some s =>
        if negb ((0 <? x) && (x <=? len s)) then None
        else
          let x := Z.to_nat x in
          let x0 := scan_left nonwords s x in
          let text1 := slice s x0 x in
          let x0 := scan_right nonwords (drop x s) x in
          let text2 := slice s x x0 in
          Some (text1, text2)
    end.

(** ** Dictionary files *)

Fixpoint span (f : ascii → bool) (s : str) : str * str :=
  match s with
  | [] => ([], [])
  | c :: rest => if f c then let '(a, b) := span f rest in (c :: a, b) else ([], s)
  end.

Definition newline : ascii := ascii_of_N 10.

(** [re.match] of a dictionary line against the pattern of the source,
    whose parts are  ^  ([^\s]+)  \s  ([^(| ]+)  ([^|]* )  \|?  (.* )?  $,
    and its four groups. Every group is greedy and what follows it cannot fail for a
    shorter choice, so the match is the greedy one: the leading run without
    whitespace, one whitespace character, the run up to a parenthesis, bar
    or blank, the run up to a bar, the bar, and the rest, which must reach
    the end of the line (or the line feed that ends it). *)
Definition acp_match (line : str) : option (str * str * str * str) :=
  let '(g1, r1) := span (λ c, negb (is_space c)) line in
  match g1, r1 with
  | _ :: _, _ :: r2 =>
      let '(g2, r3) := span (λ c, bool_decide (c ∉ lit "(| ")) r2 in
      match g2 with
      | [] => None
      | _ :: _ =>
          let '(g3, r4) := span (λ c, bool_decide (c ≠ "|"%char)) r3 in
          let r5 := match r4 with [] => [] | _ :: r => r end in
          let '(g4, r6) := span (λ c, bool_decide (c ≠ newline)) r5 in
          if bool_decide (r6 = [] ∨ r6 = [newline]) then Some (g1, g2, g3, g4) else None
      end
  | _, _ => None
  end.

(** [fstr.format(pre, word, args, descr)] *)
Definition format_acp (pre word args descr : str) : str :=
  pre ++ lit "|" ++ word ++ lit "|" ++ args ++ [tab] ++ descr.

(** One turn of the loop of [get_acp_words], up to the replacement of the
    escaped blank: the fields of the entry the line gives, if any. *)
Definition acp_line_entry (cfg : Config) (word1 target_word line : str)
  : result (option (str * str * str * str)) :=
  let line := rstrip line in
  match line with
  | [] => Ok None
  | _ :: _ =>
      match acp_match line with
      | None => Ok None
      | Some (pre, word, args, descr) =>
          let word := rstrip word in
          if len word <? option_min_len cfg then Ok None
          else
            matches ← is_text_with_begin cfg word word1;
            if matches && bool_decide (word ≠ word1) && bool_decide (word ≠ target_word)
            then Ok (Some (pre, replace word (lit "%20") (lit " "), args, descr))
            else Ok None
      end
  end.

Fixpoint acp_loop (cfg : Config) (word1 target_word : str) (acp_lines : list str)
    (acp_words_plain acp_words_fuzzy : list str) (words : gset str)
  : result (list str * list str * gset str) :=
  match acp_lines with
  | [] => Ok (acp_words_plain, acp_words_fuzzy, words)
  | line :: rest =>
      entry ← acp_line_entry cfg word1 target_word line;
      match entry with
      | None => acp_loop cfg word1 target_word rest acp_words_plain acp_words_fuzzy words
      | Some (pre, word, args, descr) =>
          let s := format_acp pre word args descr in
          if is_plain_match cfg word word1
          then acp_loop cfg word1 target_word rest
                 (acp_words_plain ++ [s]) acp_words_fuzzy (words ∪ {[word]})
          else acp_loop cfg word1 target_word rest
                 acp_words_plain (acp_words_fuzzy ++ [s]) (words ∪ {[word]})
      end
  end.

(** [del acp_lines[0]] when the first line starts with the header token. *)
Definition skip_header (acp_lines : list str) : list str :=
  match acp_lines with
  | first :: rest => if startswith first (lit "#chars") then rest else acp_lines
  | [] => []
  end.

Definition get_acp_words (host : Host) (cfg : Config) (ed : Editor) (word1 word2 : str)
  : result (list str * gset str) :=
  let lex := ed_lexer_caret ed in
  let found :=
    match acp_file host (lex ++ lit ".acp") with
    | Some acp_lines => Some acp_lines
    | None => acp_file host (lex ++ lit "_.acp")
    end in
  match found with
  | None => Ok ([], ∅)
  | Some acp_lines =>
      let target_word := word1 ++ word2 in
      let acp_lines := skip_header acp_lines in
      '(acp_words_plain, acp_words_fuzzy, words) ←
        acp_loop cfg word1 target_word acp_lines [] [] ∅;
      let acp_words := acp_words_plain ++ acp_words_fuzzy in
      Ok (acp_words, words)
  end.

(** ** Completions *)

(** Order of Python strings: lexicographic on character codes. *)
Fixpoint str_leb (a b : str) : bool :=
  match a, b with
  | [], _ => true
  | _ :: _, [] => false
  | x :: a', y :: b' =>
      if (code x <? code y)%N then true
      else if (code y <? code x)%N then false
      else str_leb a' b'
  end.
Definition str_le (a b : str) : Prop := str_leb a b = true.
Global Instance str_le_dec a b : Decision (str_le a b).
Proof. unfold str_le. apply _. Defined.

(** [sorted(l)] *)
Definition sorted (l : list str) : list str := merge_sort str_le l.

(** A list comprehension whose body or condition may raise. *)
Fixpoint map_result {A B} (f : A → result B) (l : list A) : result (list B) :=
  match l with
  | [] => Ok []
  | x :: rest => y ← f x; ys ← map_result f rest; Ok (y :: ys)
  end.

Fixpoint filter_result {A} (f : A → result bool) (l : list A) : result (list A) :=
  match l with
  | [] => Ok []
  | x :: rest =>
      keep ← f x; xs ← filter_result f rest;
      Ok (if keep : bool then x :: xs else xs)
  end.

(** [sep.join(l)] *)
Fixpoint join (sep : str) (l : list str) : str :=
  match l with
  | [] => []
  | [x] => x
  | x :: rest => x ++ sep ++ join sep rest
  end.

(** [title.replace('|', '/')] *)
Definition replace_char (old new : ascii) (s : str) : str :=
  (λ c, if bool_decide (c = old) then new else c) <$> s.

(** The local function [search_tab] of [get_completions]. *)
Definition search_tab (cfg : Config) (words_by_tabs : list (list str))
    (tab_titles : list str) (w : str) : str :=
  if (option_what_editors cfg =? 1) || (option_what_editors cfg =? 2) then
    let tabs_found :=
      (imap (λ i words_by_tabs_, if bool_decide (w ∈ words_by_tabs_) then [i] else [])
            words_by_tabs) ≫= id in
    match tabs_found with
    | [] => []
    | _ :: _ =>
        lit "|" ++ join (lit "; ") ((λ tf, default [] (tab_titles !! tf)) <$> tabs_found)
    end
  else [].

(** The local function [get_prefix]. *)
Definition get_prefix (w : str) : str :=
  if startswith w (lit "$") then lit "var" else lit "text".

(** One item of [words_decorated]. *)
Definition decorate (cfg : Config) (words_by_tabs : list (list str))
    (tab_titles : list str) (w : str) : str :=
  get_prefix w ++ lit "|" ++ w ++ search_tab cfg words_by_tabs tab_titles w.

(** The loop that fills [words_plain] and [words_fuzzy]. *)
Definition split_plain (cfg : Config) (word1 : str) (words : list str)
  : list str * list str :=
  foldl (λ '(words_plain, words_fuzzy) w,
           if is_plain_match cfg w word1
           then (words_plain ++ [w], words_fuzzy)
           else (words_plain, words_fuzzy ++ [w]))
        ([], []) words.

(** [get_completions] up to its last two lines: the tokens of each tab, the
    tab titles, the words in their final order before decoration, the
    dictionary candidates and the two parts of the typed word. *)
Definition completion_words (host : Host) (cfg : Config) (ed_self : Editor)
    (x0 y0 : Z) (with_acp ignore_lexer : bool)
  : result (option (list (list str) * list str * list str * list str * str * str)) :=
  match ed_lexer_file ed_self with
  | None => Ok None
  | Some lex =>
      if negb ignore_lexer && negb (is_lexer_allowed cfg lex) then Ok None
      else
        let nonwords := ed_nonword_chars ed_self in
        match get_word nonwords ed_self x0 y0 with
        | None => Ok None
        | Some (word1, word2) =>
            match word1 with
            | [] => Ok None
            | w0 :: _ =>
                if is_digit w0 then Ok None
                else
                  regex ← request_regex cfg word1 nonwords;
                  editors ← match get_editors host cfg ed_self lex with
                            | Some editors => Ok editors
                            | None => Raise TypeError
                            end;
                  words_by_tabs ← map_result (λ e, get_words_list host cfg e regex) editors;
                  let tab_titles :=
                    (λ e, replace_char "|" "/" (ed_tab_title e)) <$> editors in
                  let words := concat words_by_tabs in
                  let words :=
                    match words with
                    | [] => words
                    | _ :: _ => sorted (elements (list_to_set words : gset str))
                    end in
                  '(acp_words, acp_set) ←
                    (if with_acp then get_acp_words host cfg ed_self word1 word2
                     else Ok ([], ∅));
                  match words, acp_words with
                  | [], [] => Ok None
                  | _, _ =>
                      let word1and2 := word1 ++ word2 in
                      let words :=
                        filter (λ w, (w ∉ acp_set) ∧ w ≠ word1 ∧ w ≠ word1and2) words in
                      words ← filter_result (λ w, is_text_with_begin cfg w word1) words;
                      let '(words_plain, words_fuzzy) := split_plain cfg word1 words in
                      let words := words_plain ++ words_fuzzy in
                      Ok (Some (words_by_tabs, tab_titles, words, acp_words, word1, word2))
                  end
            end
        end
  end.

Definition get_completions (host : Host) (cfg : Config) (ed_self : Editor)
    (x0 y0 : Z) (with_acp ignore_lexer : bool)
  : result (option (list str * list str * str * str)) :=
  match completion_words host cfg ed_self x0 y0 with_acp ignore_lexer with
  | Raise e => Raise e
  | Ok None => Ok None
  | Ok (Some (words_by_tabs, tab_titles, words, acp_words, word1, word2)) =>
      let words_decorated := decorate cfg words_by_tabs tab_titles <$> words in
      Ok (Some (words_decorated, acp_words, word1, word2))
  end.

(** ** Reference statements *)

(** "Every character of [sfind], uppercased, occurs in [stext], uppercased,
    as a subsequence in order". *)
Definition is_subsequence_upper (stext sfind : str) : Prop :=
  upper sfind `sublist_of` upper stext.

(** Length of the longest common leading substring of two strings. *)
Fixpoint common_prefix_len (a b : str) : nat :=
  match a, b with
  | x :: a', y :: b' => if bool_decide (x = y) then S (common_prefix_len a' b') else 0%nat
  | _, _ => 0%nat
  end.

(** The suffix of [s] that starts after offset [k]. *)
Definition suffix_after (k : nat) (s : str) : str := drop (S k) s.

(** The underscore-split recursion as the specification words it: fail on a
    common length of 0, succeed when the common part is all of [begin], fail
    when one segment is left, otherwise try every split point [i] from 1 up
    to the common length on the suffix starting after offset
    [common_length - i]. *)
Fixpoint spl_match_spec (begin : str) (words : list str) : bool :=
  match words with
  | [] => false
  | first :: remaining =>
      let common_length := common_prefix_len begin first in
      if (common_length =? 0)%nat then false
      else if (common_length =? length begin)%nat then true
      else
        match remaining with
        | [] => false
        | _ :: _ =>
            existsb (λ i, spl_match_spec (suffix_after (common_length - i) begin) remaining)
                    (seq 1 common_length)
        end
  end.

(** The pattern text for a request whose token must begin with [first]
    (after an optional dollar sign, at a word boundary) and continue with at
    least [n] word characters. *)
Definition regex_with_repeats (first : ascii) (nonwords : str) (n : Z) : str :=
  lit "\$?\b" ++ escape_regex [first] ++ lit "[" ++ w_content nonwords
  ++ lit "]{" ++ str_of_int n ++ lit ",}".

(** The case-split test up to the letter case of the prefix: some prefix that
    differs from [begin] only in letter case passes [case_split_path]. *)
Definition case_split_up_to_case (s begin : str) : Prop :=
  ∃ begin', upper begin' = upper begin ∧ case_split_path s begin' = Ok true.

(** The values the source reads when the settings file says nothing. *)
Definition default_options : Config := {|
  option_lexers := lit "-,ini files ^,markdown,restructuredtext,properties";
  option_min_len := 3;
  option_case_sens := true;
  option_what_editors := 0;
  option_max_lines := 10000;
  option_use_acp := true;
  option_show_acp_first := false;
  option_case_split := false;
  option_underscore_split := false;
  option_fuzzy := true
|}.

(** A tab without lexer holding one line of text. *)
Definition plain_tab (text : str) : Editor := {|
  ed_lexer_file := Some [];
  ed_lexer_caret := [];
  ed_tab_title := lit "Untitled1";
  ed_lines := [text];
  ed_text_all := text;
  ed_nonword_chars := NONWORDS_DEFAULT
|}.

(** A host with the tabs [tabs], one dictionary file and a scanner that
    answers [found] for every text. *)
Definition host_with (tabs : list Editor) (file : str) (acp_lines : list str)
    (found : list str) : Host := {|
  ed_handles := tabs;
  acp_file := λ name, if bool_decide (name = file) then Some acp_lines else None;
  re_findall := λ _ _ _, Ok found
|}.

(** A dictionary file with a header row and the line for [foreach]. *)
Definition foreach_acp : list str :=
  [lit "#chars .$" ++ [newline]; lit "^ foreach(x)|loop over x" ++ [newline]].

(** The word of a dictionary entry and the candidate text emitted for it. *)
Definition entry_word (e : str * str * str * str) : str := e.1.1.2.
Definition entry_text (e : str * str * str * str) : str :=
  format_acp e.1.1.1 e.1.1.2 e.1.2 e.2.

(** The lines of the dictionary file of a tab that the loop of
    [get_acp_words] runs over, in file order; none when dictionaries are not
    asked for or no file exists. *)
Definition dictionary_lines (host : Host) (ed : Editor) (with_acp : bool) : list str :=
  if with_acp then
    match acp_file host (ed_lexer_caret ed ++ lit ".acp") with
    | Some acp_lines => skip_header acp_lines
    | None =>
        match acp_file host (ed_lexer_caret ed ++ lit "_.acp") with
        | Some acp_lines => skip_header acp_lines
        | None => []
        end
    end
  else [].

(** An entry, or a buffer word, that satisfies the plain-prefix strategy. *)
Definition plain_word (cfg : Config) (word1 w : str) : Prop :=
  is_plain_match cfg w word1 = true.
Definition plain_entry (cfg : Config) (word1 : str) (e : str * str * str * str) : Prop :=
  is_plain_match cfg (entry_word e) word1 = true.
Global Instance plain_word_dec cfg word1 w : Decision (plain_word cfg word1 w).
Proof. unfold plain_word. apply _. Defined.
Global Instance plain_entry_dec cfg word1 e : Decision (plain_entry cfg word1 e).
Proof. unfold plain_entry. apply _. Defined.

(** The ordering invariant of a result: the buffer candidates are the
    decorated words of the request, which are the words of an alphabetically
    ordered list without repetition, those that satisfy the plain-prefix
    strategy first and the others after them, each group in the order of the
    list; the dictionary candidates are the entries of the dictionary lines
    in file order, again the plain ones first and each group in file
    order. *)
Definition plain_first (host : Host) (cfg : Config) (ed : Editor) (x0 y0 : Z)
    (with_acp ignore_lexer : bool)
    (words_decorated acp_words : list str) (word1 word2 : str) : Prop :=
  ∃ (words_by_tabs : list (list str)) (tab_titles words ordered : list str)
    (parsed : list (option (str * str * str * str))),
    let words_plain := filter (plain_word cfg word1) ordered in
    let words_fuzzy := filter (λ w, ¬ plain_word cfg word1 w) ordered in
    let entries := omap id parsed in
    let entries_plain := filter (plain_entry cfg word1) entries in
    let entries_fuzzy := filter (λ e, ¬ plain_entry cfg word1 e) entries in
    completion_words host cfg ed x0 y0 with_acp ignore_lexer
      = Ok (Some (words_by_tabs, tab_titles, words, acp_words, word1, word2))
    ∧ words_decorated = decorate cfg words_by_tabs tab_titles <$> words
    ∧ words = words_plain ++ words_fuzzy
    ∧ StronglySorted str_le ordered ∧ NoDup ordered
    ∧ StronglySorted str_le words_plain ∧ StronglySorted str_le words_fuzzy
    ∧ (∀ i j a b, (words_plain ++ words_fuzzy) !! i = Some a →
                  (words_plain ++ words_fuzzy) !! j = Some b →
                  plain_word cfg word1 a → ¬ plain_word cfg word1 b → (i < j)%nat)
    ∧ map_result (acp_line_entry cfg word1 (word1 ++ word2))
                 (dictionary_lines host ed with_acp) = Ok parsed
    ∧ acp_words = entry_text <$> (entries_plain ++ entries_fuzzy)
    ∧ (∀ i j a b, (entries_plain ++ entries_fuzzy) !! i = Some a →
                  (entries_plain ++ entries_fuzzy) !! j = Some b →
                  plain_entry cfg word1 a → ¬ plain_entry cfg word1 b → (i < j)%nat).

(** The exclusion invariant of a result: no word among the candidates of
    either list is the typed left part or the whole typed word, and no
    buffer word is the word of a dictionary candidate. The words are those
    the request decorates, the entries those of the dictionary lines. *)
Definition typed_text_excluded (host : Host) (cfg : Config) (ed : Editor) (x0 y0 : Z)
    (with_acp ignore_lexer : bool)
    (words_decorated acp_words : list str) (word1 word2 : str) : Prop :=
  ∃ (words_by_tabs : list (list str)) (tab_titles words : list str)
    (parsed : list (option (str * str * str * str))),
    let entries := omap id parsed in
    completion_words host cfg ed x0 y0 with_acp ignore_lexer
      = Ok (Some (words_by_tabs, tab_titles, words, acp_words, word1, word2))
    ∧ words_decorated = decorate cfg words_by_tabs tab_titles <$> words
    ∧ map_result (acp_line_entry cfg word1 (word1 ++ word2))
                 (dictionary_lines host ed with_acp) = Ok parsed
    ∧ acp_words ≡ₚ entry_text <$> entries
    ∧ Forall (λ w, w ≠ word1 ∧ w ≠ word1 ++ word2
                   ∧ ∀ e, e ∈ entries → w ≠ entry_word e) words
    ∧ Forall (λ e, entry_word e ≠ word1 ∧ entry_word e ≠ word1 ++ word2) entries.

(** A request: the caret stands after "pl" at the end of the only line of a
    tab, the scanner finds five tokens, and the dictionary has four lines. *)
Definition demo_tab : Editor := plain_tab (lit "please plenty pl").
Definition demo_acp : list str :=
  [lit "#chars .$" ++ [newline];
   lit "^ foreach(x)|loop over x" ++ [newline];
   lit "^ apply(f)|call f" ++ [newline];
   lit "^ plot(x, y)|draw" ++ [newline]].
Definition demo_host : Host :=
  host_with [demo_tab] (lit ".acp") demo_acp
    [lit "puzzle"; lit "plenty"; lit "pl"; lit "please"; lit "palace"; lit "plenty"].
Definition demo_words : list str :=
  [lit "text|please"; lit "text|plenty"; lit "text|palace"; lit "text|puzzle"].
Definition demo_acp_words : list str :=
  [format_acp (lit "^") (lit "plot") (lit "(x, y)") (lit "draw");
   format_acp (lit "^") (lit "apply") (lit "(f)") (lit "call f")].

(** Every strategy switched on, and matching without regard to case with
    the case-split and underscore-split strategies only. *)
Definition all_strategies : Config := {|
  option_lexers := option_lexers default_options;
  option_min_len := 3;
  option_case_sens := true;
  option_what_editors := 0;
  option_max_lines := 10000;
  option_use_acp := true;
  option_show_acp_first := false;
  option_case_split := true;
  option_underscore_split := true;
  option_fuzzy := true
|}.
Definition split_ignoring_case : Config := {|
  option_lexers := option_lexers default_options;
  option_min_len := 3;
  option_case_sens := false;
  option_what_editors := 0;
  option_max_lines := 10000;
  option_use_acp := true;
  option_show_acp_first := false;
  option_case_split := true;
  option_underscore_split := true;
  option_fuzzy := false
|}.

(** ** Further reference statements *)

(** The docstring of [spl_match]: [begin] fits consecutively into [words],
    as non-empty leading parts of the first segments in turn. *)
Inductive fits : str → list str → Prop :=
  | fits_last (p w : str) (ws : list str) :
      p ≠ [] → p `prefix_of` w → fits p (w :: ws)
  | fits_next (p rest w : str) (ws : list str) :
      p ≠ [] → p `prefix_of` w → fits rest ws → fits (p ++ rest) (w :: ws).

(** ** Settings and the completion command *)


(** [Command.on_complete], for the carets [carets] of the tab (each caret is
    [(x0, y0, x1, y1)], with [y1 < 0] when nothing is selected). The call
    [ed_self.complete(text, len1, len2)] that ends the method is the value
    returned: [Some (text, len1, len2)] stands for that call followed by
    [return True], [None] for a bare [return]. *)
Definition on_complete (host : Host) (cfg : Config) (ed_self : Editor)
    (carets : list (Z * Z * Z * Z)) : result (option (str * Z * Z)) :=
  if negb (len carets =? 1) then Ok None
  else
    match carets with
    | [] => Raise IndexError
    | (x0, y0, x1, y1) :: _ =>
        if y1 >=? 0 then Ok None
        else
          res ← get_completions host cfg ed_self x0 y0 (option_use_acp cfg) false;
          match res with
          | None => Ok None
          | Some (words, acp_words, word1, word2) =>
              let word_list :=
                if option_show_acp_first cfg then acp_words ++ words
                else words ++ acp_words in
              Ok (Some (join [newline] word_list, len word1, len word2))
          end
    end.

(** The reading of an escaped text: a backslash makes the character after it
    literal. *)
Fixpoint unescape (s : str) : str :=
  match s with
  | [] => []
  | c :: rest =>
      if bool_decide (c = "\"%char) then
        match rest with
        | [] => [c]
        | c' :: rest' => c' :: unescape rest'
        end
      else c :: unescape rest
  end.

(** A camel-case segment: a capital letter followed by characters that are
    no capital letters. *)
Definition camel_segment (seg : str) : Prop :=
  ∃ c tail, seg = c :: tail ∧ is_AZ c = true ∧ Forall (λ x, is_AZ x = false) tail.

(** The default options with another scope of tabs. *)
Definition with_scope (what_editors : Z) : Config := {|
  option_lexers := option_lexers default_options;
  option_min_len := 3;
  option_case_sens := true;
  option_what_editors := what_editors;
  option_max_lines := 10000;
  option_use_acp := true;
  option_show_acp_first := false;
  option_case_split := false;
  option_underscore_split := false;
  option_fuzzy := true
|}.

(** A host whose scanner finds the typed word "pl" and nothing else. *)
Definition lonely_host : Host := host_with [demo_tab] (lit ".acp") [] [lit "pl"].

(** ** Text of the ASCII range *)

(** On text of the ASCII range [upper] and [lower] are [str.upper] and
    [str.lower]. Outside it the case mappings of Python are those of
    Unicode, which do not keep the length of a text and are not inverse to
    each other up to case. *)
Definition ascii_text (s : str) : Prop := Forall (λ c, (code c < 128)%N) s.

(** ** The line grammar of dictionary files *)




(** * Properties *)

(** ** Strings and loops *)

Lemma startswith_prefix (s p : str) : startswith s p = true ↔ p `prefix_of` s.
Proof.
  revert s. induction p as [|b p IH]; intros [|a s]; simpl.
  - split; [intros _; apply prefix_nil | done].
  - split; [intros _; apply prefix_nil | done].
  - split; [done | intros H; by apply prefix_nil_not in H].
  - rewrite andb_true_iff, bool_decide_eq_true, IH. split.
    + intros [-> H]. by apply prefix_cons.
    + intros H. split; [symmetry; by eapply prefix_cons_inv_1 | by eapply prefix_cons_inv_2].
Qed.

Lemma index_of_Some ch s k :
  index_of ch s = Some k →
  ∃ pre post, s = pre ++ ch :: post ∧ length pre = k ∧ ch ∉ pre.
Proof.
  revert k. induction s as [|c s IH]; intros k; simpl; [done|].
  case_bool_decide as Hc.
  - intros [= <-]. exists [], s. subst. split_and!; [done..|]. apply not_elem_of_nil.
  - destruct (index_of ch s) as [j|] eqn:Hj; simpl; [|done].
    intros [= <-]. destruct (IH j eq_refl) as (pre & post & -> & <- & Hpre).
    exists (c :: pre), post. split_and!; [done..|].
    rewrite elem_of_cons. intros [->|?]; done.
Qed.

Lemma index_of_None ch s : index_of ch s = None → ch ∉ s.
Proof.
  induction s as [|c s IH]; simpl; [intros _; apply not_elem_of_nil|].
  case_bool_decide as Hc; [done|].
  destruct (index_of ch s); simpl; [done|]. intros _.
  rewrite elem_of_cons. intros [->|?]; [done|]. by apply IH.
Qed.

Lemma sublist_first_occurrence (ch : ascii) (rest pre post : str) :
  ch ∉ pre →
  (ch :: rest) `sublist_of` (pre ++ ch :: post) ↔ rest `sublist_of` post.
Proof.
  intros Hpre. split.
  - induction pre as [|x pre IH]; simpl; intros H.
    + inversion H; subst; [done|].
      etrans; [|done]. by apply sublist_cons.
    + apply not_elem_of_cons in Hpre as [Hx Hpre].
      inversion H; subst; [done | by apply IH].
  - intros H. apply sublist_inserts_l. by apply sublist_skip.
Qed.

(** The scanning loop decides the subsequence relation on the part of the
    text that lies after the last position found. *)
Lemma fuzzy_loop_sublist (sfind stext : str) (n : Z) :
  -1 ≤ n →
  fuzzy_loop stext sfind n = true ↔ sfind `sublist_of` drop (Z.to_nat (n + 1)) stext.
Proof.
  revert n. induction sfind as [|ch rest IH]; intros n Hn; simpl.
  - split; [intros _; apply sublist_nil_l | done].
  - unfold find. replace (n + 1 <? 0) with false by (symmetry; apply Z.ltb_ge; lia).
    destruct (index_of ch (drop (Z.to_nat (n + 1)) stext)) as [k|] eqn:Hk.
    + apply index_of_Some in Hk as (pre & post & Hsplit & Hlen & Hpre).
      replace (n + 1 + Z.of_nat k <? 0) with false by (symmetry; apply Z.ltb_ge; lia).
      rewrite IH by lia. rewrite Hsplit, sublist_first_occurrence by done.
      replace (Z.to_nat (n + 1 + Z.of_nat k + 1)) with (Z.to_nat (n + 1) + S k)%nat by lia.
      rewrite <- drop_drop, Hsplit.
      replace (S k) with (length pre + 1)%nat by lia.
      rewrite drop_app_add. done.
    + apply index_of_None in Hk. simpl. split; [done|].
      intros H. destruct Hk. eapply elem_of_sublist; [|done]. apply elem_of_cons; by left.
Qed.

Lemma prefix_is_sublist (p s : str) : p `prefix_of` s → p `sublist_of` s.
Proof. intros [k ->]. apply sublist_inserts_r. done. Qed.

Lemma upper_prefix (p s : str) : p `prefix_of` s → upper p `prefix_of` upper s.
Proof. intros [k ->]. unfold upper. rewrite fmap_app. by apply prefix_app_r. Qed.

Lemma is_fuzzy_match_sublist (stext sfind : str) :
  is_fuzzy_match stext sfind = true ↔ upper sfind `sublist_of` upper stext.
Proof. unfold is_fuzzy_match. rewrite fuzzy_loop_sublist by lia. done. Qed.

(** ** Fuzzy matching *)

(** C1: [is_fuzzy_match] returns true exactly when the uppercased prefix is
    a subsequence, in order, of the uppercased candidate; it accepts
    "fbb" and rejects "fbx" against "FooBarBaz". *)
Theorem is_fuzzy_match_is_subsequence :
  (∀ stext sfind : str,
     is_fuzzy_match stext sfind = true ↔ is_subsequence_upper stext sfind)
  ∧ is_fuzzy_match (lit "FooBarBaz") (lit "fbb") = true
  ∧ is_fuzzy_match (lit "FooBarBaz") (lit "fbx") = false.
Proof.
  split_and!; [|reflexivity..].
  intros stext sfind. apply is_fuzzy_match_sublist.
Qed.

(** C10: whatever the case-sensitivity option, a candidate accepted by
    [is_plain_match] is accepted by [is_fuzzy_match]. *)
Theorem plain_match_is_fuzzy_match (cfg : Config) (s p : str) :
  is_plain_match cfg s p = true → is_fuzzy_match s p = true.
Proof.
  unfold is_plain_match. intros H. apply is_fuzzy_match_sublist, prefix_is_sublist.
  destruct (option_case_sens cfg); apply startswith_prefix in H.
  - by apply upper_prefix.
  - done.
Qed.

(** C2: with the fuzzy option on, [is_text_with_begin] is [is_fuzzy_match],
    for every setting of the case-split and underscore-split options. *)
Theorem fuzzy_supersedes_chain (cfg : Config) (s begin : str) :
  option_fuzzy cfg = true →
  is_text_with_begin cfg s begin = Ok (is_fuzzy_match s begin).
Proof. intros Hfuzzy. unfold is_text_with_begin. by rewrite Hfuzzy. Qed.

(** ** The underscore-split recursion *)

Lemma getitem_middle {A} (pre post : list A) (x : A) (k : nat) :
  length pre = k → getitem (pre ++ x :: post) k = Ok x.
Proof. intros <-. unfold getitem. by rewrite list_lookup_middle. Qed.

Lemma common_len_loop_shift (b w pre_b pre_w : str) (k : nat) :
  length pre_b = k → length pre_w = k →
  common_len_loop (pre_b ++ b) (pre_w ++ w) (seq k (length b `min` length w)) k
  = Ok (k + common_prefix_len b w)%nat.
Proof.
  revert w pre_b pre_w k.
  induction b as [|x b IH]; intros [|y w] pre_b pre_w k Hb Hw; simpl;
    try (f_equal; lia).
  rewrite !getitem_middle by done. simpl.
  case_bool_decide as Hxy; [|f_equal; lia].
  replace (pre_b ++ x :: b) with ((pre_b ++ [x]) ++ b) by by rewrite <- app_assoc.
  replace (pre_w ++ y :: w) with ((pre_w ++ [y]) ++ w) by by rewrite <- app_assoc.
  replace (k + 1)%nat with (S k) by lia.
  rewrite IH by (rewrite length_app; simpl; lia). f_equal. lia.
Qed.

Lemma common_len_loop_spec (begin word : str) :
  common_len_loop begin word (seq 0 (length begin `min` length word)) 0
  = Ok (common_prefix_len begin word).
Proof. apply (common_len_loop_shift begin word [] [] 0); done. Qed.

Lemma common_prefix_len_le (a b : str) : (common_prefix_len a b ≤ length a)%nat.
Proof.
  revert b. induction a as [|x a IH]; intros [|y b]; simpl; try lia.
  case_bool_decide; [specialize (IH b)|]; lia.
Qed.

Lemma for_any_existsb (body : nat → result bool) (f : nat → bool) (idx : list nat) :
  (∀ i, i ∈ idx → body i = Ok (f i)) →
  for_any body idx = Ok (existsb f idx).
Proof.
  induction idx as [|i idx IH]; intros Hbody; simpl; [done|].
  rewrite (Hbody i) by (apply elem_of_cons; by left). simpl.
  destruct (f i); [done|]. apply IH. intros j Hj. apply Hbody, elem_of_cons. by right.
Qed.

Lemma existsb_seq_shift (f : nat → bool) (n : nat) :
  existsb f (seq 1 n) = existsb (λ i, f (S i)) (seq 0 n).
Proof.
  generalize 0%nat. induction n as [|n IH]; intros k; simpl; [done|].
  by rewrite IH.
Qed.

Lemma existsb_ext_in {A} (f g : A → bool) (l : list A) :
  (∀ x, x ∈ l → f x = g x) → existsb f l = existsb g l.
Proof.
  induction l as [|x l IH]; intros H; simpl; [done|].
  rewrite (H x) by (apply elem_of_cons; by left).
  f_equal. apply IH. intros y Hy. apply H, elem_of_cons. by right.
Qed.

Lemma spl_match_refines_spec (begin : str) (words : list str) :
  words ≠ [] → spl_match begin words = Ok (spl_match_spec begin words).
Proof.
  revert begin. induction words as [|word rest IH]; intros begin Hne; [done|].
  simpl. rewrite common_len_loop_spec. simpl.
  pose proof (common_prefix_len_le begin word) as Hle.
  set (cl := common_prefix_len begin word) in *.
  destruct cl as [|c] eqn:Hcl; [done|].
  change (0 <? S c)%nat with true. change (S c =? 0)%nat with false. cbv iota.
  rewrite (Nat.eqb_sym (S c)).
  destruct (length begin =? S c)%nat eqn:Hfull; [done|].
  destruct rest as [|w2 rest']; [done|].
  change (length (w2 :: rest') =? 0)%nat with false. cbv iota.
  rewrite existsb_seq_shift.
  rewrite (for_any_existsb _
             (λ i, spl_match_spec (drop (S c - i) begin) (w2 :: rest'))).
  - f_equal. apply existsb_ext_in. intros i Hi%elem_of_seq.
    unfold suffix_after. do 2 f_equal. lia.
  - intros i _. by apply IH.
Qed.

(** C3: on a non-empty segment list [spl_match] computes what the
    specification describes (longest common leading substring with the first
    segment; failure on common length 0; success when the prefix is used up;
    failure on the last segment; otherwise every split point from 1 to the
    common length, on the suffix after offset [common_length - i], against
    the remaining segments), it never raises there, and it accepts "pl"
    against prop, lexer, file. *)
Theorem spl_match_as_specified :
  (∀ (begin : str) (words : list str),
     words ≠ [] → spl_match begin words = Ok (spl_match_spec begin words))
  ∧ spl_match (lit "pl") [lit "prop"; lit "lexer"; lit "file"] = Ok true.
Proof. split; [apply spl_match_refines_spec | reflexivity]. Qed.

(** ** The scan pattern *)

(** C4, as the specification has it, fails: with the default minimum length
    3 and the typed prefix "abc" the pattern asks for two word characters
    after the "a", not for [max(1, 3 - 3) = 1]. *)
Lemma scan_pattern_not_by_prefix_length :
  request_regex default_options (lit "abc") NONWORDS_DEFAULT
    = Ok (lit "\$?\ba[\w]{2,}")
  ∧ Z.max 1 (option_min_len default_options - len (lit "abc")) = 1
  ∧ request_regex default_options (lit "abc") NONWORDS_DEFAULT
    ≠ Ok (regex_with_repeats "a" NONWORDS_DEFAULT
            (Z.max 1 (option_min_len default_options - len (lit "abc")))).
Proof. split_and!; [reflexivity..|]. vm_compute. discriminate. Qed.

(** C4, amended: the pattern of a request fixes the first character of the
    typed prefix and asks for at least [max(1, min_len - 1)] word characters
    after it, whatever the length of the prefix. *)
Theorem scan_pattern_of_request (cfg : Config) (c : ascii) (rest nonwords : str) :
  request_regex cfg (c :: rest) nonwords
  = Ok (regex_with_repeats c nonwords (Z.max 1 (option_min_len cfg - 1))).
Proof. reflexivity. Qed.

(** ** Case-split matching *)

Lemma for_else_true (body : nat → result bool) (idx : list nat) :
  for_else body idx = Ok true ↔ ∀ i, i ∈ idx → body i = Ok true.
Proof.
  induction idx as [|i idx IH]; simpl.
  - split; [intros _ i Hi; by apply elem_of_nil in Hi | done].
  - destruct (body i) as [[|]|e] eqn:Hi; simpl.
    + rewrite IH. split.
      * intros H j [->|Hj]%elem_of_cons; auto.
      * intros H j Hj. apply H, elem_of_cons. by right.
    + split; [done|]. intros H. specialize (H i). rewrite Hi in H.
      discriminate H. apply elem_of_cons. by left.
    + split; [done|]. intros H. specialize (H i). rewrite Hi in H.
      discriminate H. apply elem_of_cons. by left.
Qed.

Lemma case_split_path_true (s begin : str) :
  case_split_path s begin = Ok true ↔
    (∃ c s' begin', s = c :: s' ∧ begin = c :: begin')
    ∧ ∀ i p, findall_camel begin !! i = Some p →
             ∃ w, findall_camel s !! i = Some w ∧ p `prefix_of` w.
Proof.
  unfold case_split_path.
  destruct s as [|a s]; [split; [done | by intros [(? & ? & ? & ? & ?) _]]|].
  destruct begin as [|b begin]; [split; [done | by intros [(? & ? & ? & ? & ?) _]]|].
  change (getitem (a :: s) 0) with (Ok a). change (getitem (b :: begin) 0) with (Ok b).
  simpl mbind. case_bool_decide as Hab.
  2:{ split; [done|]. intros [(? & ? & ? & ? & ?) _]. congruence. }
  subst b. cbv zeta.
  set (searchwords := findall_camel (a :: begin)).
  set (wordwords := findall_camel (a :: s)).
  destruct (length searchwords <=? length wordwords)%nat eqn:Hlen.
  - apply Nat.leb_le in Hlen. rewrite for_else_true. split.
    + intros H. split; [by eauto|]. intros i p Hp.
      assert (i < length searchwords)%nat as Hi by (by eapply lookup_lt_Some).
      specialize (H i). unfold getitem in H. rewrite Hp in H.
      destruct (wordwords !! i) as [w|] eqn:Hw.
      * exists w. split; [done|]. apply startswith_prefix.
        assert (Ok (startswith w p) = Ok true) as [= ->]; [|done].
        apply H, elem_of_seq. lia.
      * apply lookup_ge_None in Hw. lia.
    + intros [_ H] i [_ Hi]%elem_of_seq. simpl in Hi.
      destruct (lookup_lt_is_Some_2 searchwords i Hi) as [p Hp].
      destruct (H i p Hp) as (w & Hw & Hpw). unfold getitem. rewrite Hw, Hp. simpl.
      f_equal. by apply startswith_prefix.
  - apply Nat.leb_gt in Hlen. split; [done|]. intros [_ H].
    destruct (lookup_lt_is_Some_2 searchwords (length wordwords) Hlen) as [p Hp].
    destruct (H _ p Hp) as (w & Hw & _). apply lookup_lt_Some in Hw. lia.
Qed.

(** C9: the case-split test takes no case-sensitivity option and compares
    exactly: it accepts just when candidate and prefix begin with the same
    character and every camel-case segment of the prefix is a leading part
    of the candidate segment at the same place; [is_text_with_begin] accepts
    on it under either value of the option. So "PropLexerFile" is rejected
    for the prefix "plF", also when matching is case-insensitive, although
    the prefix "PLF", which differs only in letter case, is accepted. *)
Theorem case_split_is_case_sensitive :
  (∀ s begin : str,
     case_split_path s begin = Ok true ↔
       (∃ c s' begin', s = c :: s' ∧ begin = c :: begin')
       ∧ ∀ i p, findall_camel begin !! i = Some p →
                ∃ w, findall_camel s !! i = Some w ∧ p `prefix_of` w)
  ∧ (∀ (cfg : Config) (s begin : str),
       option_fuzzy cfg = false → option_case_split cfg = true →
       case_split_path s begin = Ok true → is_text_with_begin cfg s begin = Ok true)
  ∧ (∀ cfg : Config,
       option_fuzzy cfg = false → option_case_sens cfg = false →
       is_text_with_begin cfg (lit "PropLexerFile") (lit "plF") = Ok false)
  ∧ case_split_path (lit "PropLexerFile") (lit "plF") = Ok false
  ∧ case_split_up_to_case (lit "PropLexerFile") (lit "plF").
Proof.
  split_and!.
  - apply case_split_path_true.
  - intros cfg s begin Hfuzzy Hsplit Hpath. unfold is_text_with_begin.
    by rewrite Hfuzzy, Hsplit, Hpath.
  - intros [lexers min_len cs we ml acp first csplit us fz]; simpl.
    intros -> ->. by destruct csplit, us.
  - reflexivity.
  - exists (lit "PLF"). by split.
Qed.

(** ** Dictionary files *)

Lemma span_spec (f : ascii → bool) (s a b : str) :
  span f s = (a, b) →
  s = a ++ b ∧ Forall (λ c, f c = true) a ∧ ∀ c, head b = Some c → f c = false.
Proof.
  revert a b. induction s as [|c s IH]; simpl; intros a b.
  - intros [= <- <-]. by split_and!.
  - destruct (f c) eqn:Hc.
    + destruct (span f s) as [a' b'] eqn:Hspan. intros [= <- <-].
      destruct (IH a' b' eq_refl) as (-> & Ha & Hb). split_and!; [done| |done].
      by constructor.
    + intros [= <- <-]. split_and!; [done..|]. simpl. by intros ? [= <-].
Qed.




(** The groups of a matching line, read off the matcher. *)
Lemma acp_match_fields (line pre word args descr : str) :
  acp_match line = Some (pre, word, args, descr) →
  ∃ (ws : ascii) (bar nl : str),
    line = pre ++ ws :: word ++ args ++ bar ++ descr ++ nl
    ∧ is_space ws = true
    ∧ pre ≠ [] ∧ Forall (λ c, is_space c = false) pre
    ∧ word ≠ [] ∧ Forall (λ c, c ∉ lit "(| ") word
    ∧ ("|"%char ∉ args)
    ∧ (bar = lit "|" ∨ (bar = [] ∧ descr = [] ∧ nl = []))
    ∧ (newline ∉ descr)
    ∧ (nl = [] ∨ nl = [newline]).
Proof.
  unfold acp_match.
  destruct (span _ line) as [g1 r1] eqn:H1.
  apply span_spec in H1 as (-> & Hg1 & Hr1).
  destruct g1 as [|c1 g1]; [done|]. destruct r1 as [|ws r2]; [done|].
  destruct (span _ r2) as [g2 r3] eqn:H2.
  apply span_spec in H2 as (-> & Hg2 & Hr3).
  destruct g2 as [|c2 g2]; [done|].
  destruct (span _ r3) as [g3 r4] eqn:H3.
  apply span_spec in H3 as (-> & Hg3 & Hr4).
  destruct (span _ (match r4 with [] => [] | _ :: r => r end)) as [g4 r6] eqn:H4.
  apply span_spec in H4 as (Hr5 & Hg4 & Hr6).
  case_bool_decide as Hend; [|done]. intros [= <- <- <- <-].
  exists ws, (match r4 with [] => [] | c :: _ => [c] end), r6.
  split_and!.
  - do 4 f_equal. destruct r4 as [|c r5]; simpl in *; [by rewrite <- Hr5|].
    by rewrite Hr5.
  - specialize (Hr1 ws eq_refl). by apply negb_false_iff in Hr1.
  - done.
  - eapply Forall_impl; [exact Hg1|]. intros c Hc. by apply negb_true_iff in Hc.
  - done.
  - eapply Forall_impl; [exact Hg2|]. intros c Hc. by apply bool_decide_eq_true in Hc.
  - intros Hin. rewrite Forall_forall in Hg3. specialize (Hg3 _ Hin).
    by apply bool_decide_eq_true in Hg3.
  - destruct r4 as [|c r5]; simpl in *.
    + right. symmetry in Hr5. apply app_eq_nil in Hr5 as [-> ->]. done.
    + left. specialize (Hr4 c eq_refl). apply bool_decide_eq_false in Hr4.
      f_equal. by destruct (decide (c = "|"%char)).
  - intros Hin. rewrite Forall_forall in Hg4. specialize (Hg4 _ Hin).
    by apply bool_decide_eq_true in Hg4.
  - destruct Hend as [->| ->]; by eauto.
Qed.






(** ** Exceptions of the core *)

(** C8 fails on the code: when the settings file gives [what_editors] a
    value other than 0, 1 and 2, [get_editors] returns nothing and the loop
    over its answer raises [TypeError]. Here the setting is 3, the tab holds
    the line "hello" and the caret stands after "he". *)
Theorem get_completions_raises_on_editor_scope (host : Host) (with_acp : bool) :
  let cfg :=
    {| option_lexers := option_lexers default_options;
       option_min_len := 3; option_case_sens := true;
       option_what_editors := 3;
       option_max_lines := 10000; option_use_acp := true;
       option_show_acp_first := false; option_case_split := false;
       option_underscore_split := false; option_fuzzy := true |} in
  get_editors host cfg (plain_tab (lit "hello")) [] = None
  ∧ get_completions host cfg (plain_tab (lit "hello")) 2 0 with_acp false
    = Raise TypeError.
Proof. split; reflexivity. Qed.

(** ** Order of strings *)

Lemma str_leb_total (a b : str) : str_leb a b = true ∨ str_leb b a = true.
Proof.
  revert b. induction a as [|x a IH]; intros [|y b]; simpl; auto.
  destruct (N.ltb_spec (code x) (code y)), (N.ltb_spec (code y) (code x));
    auto; lia.
Qed.

Lemma str_leb_trans (a b c : str) :
  str_leb a b = true → str_leb b c = true → str_leb a c = true.
Proof.
  revert b c. induction a as [|x a IH]; intros [|y b] [|z c]; simpl; try done.
  destruct (N.ltb_spec (code x) (code y)), (N.ltb_spec (code y) (code x)),
    (N.ltb_spec (code y) (code z)), (N.ltb_spec (code z) (code y)),
    (N.ltb_spec (code x) (code z)), (N.ltb_spec (code z) (code x));
    try done; try lia.
  apply IH.
Qed.

Global Instance str_le_total : Total str_le.
Proof. intros a b. apply str_leb_total. Qed.
Global Instance str_le_trans : Transitive str_le.
Proof. intros a b c. apply str_leb_trans. Qed.

Lemma sorted_StronglySorted (l : list str) : StronglySorted str_le (sorted l).
Proof. apply StronglySorted_merge_sort; apply _. Qed.

Lemma sorted_elem_of (l : list str) (w : str) : w ∈ sorted l ↔ w ∈ l.
Proof. unfold sorted. by rewrite merge_sort_Permutation. Qed.

Lemma StronglySorted_sublist {A} (R : relation A) (l k : list A) :
  l `sublist_of` k → StronglySorted R k → StronglySorted R l.
Proof.
  induction 1 as [|x l k Hlk IH|x l k Hlk IH]; intros Hk; [done|..].
  - apply StronglySorted_inv in Hk as [Hk Hx]. constructor; [by apply IH|].
    rewrite Forall_forall in Hx |- *. intros y Hy. apply Hx.
    by eapply elem_of_sublist.
  - apply StronglySorted_inv in Hk as [Hk _]. by apply IH.
Qed.

(** ** Loops of the aggregator *)

Lemma split_plain_filter (cfg : Config) (word1 : str) (words : list str) :
  split_plain cfg word1 words
  = (filter (plain_word cfg word1) words, filter (λ w, ¬ plain_word cfg word1 w) words).
Proof.
  unfold split_plain.
  enough (∀ p f,
    foldl (λ '(words_plain, words_fuzzy) w,
             if is_plain_match cfg w word1
             then (words_plain ++ [w], words_fuzzy)
             else (words_plain, words_fuzzy ++ [w])) (p, f) words
    = (p ++ filter (plain_word cfg word1) words,
       f ++ filter (λ w, ¬ plain_word cfg word1 w) words)) as H by apply (H [] []).
  induction words as [|w words IH]; intros p f; simpl.
  - by rewrite !app_nil_r.
  - destruct (is_plain_match cfg w word1) eqn:Hw; rewrite IH.
    + rewrite filter_cons_True by done.
      rewrite filter_cons_False by (unfold plain_word; intros ?; congruence).
      by rewrite <- app_assoc.
    + rewrite filter_cons_False by (unfold plain_word; congruence).
      rewrite filter_cons_True by (unfold plain_word; congruence).
      by rewrite <- app_assoc.
Qed.

Lemma filter_result_Ok {A} (f : A → result bool) (l kept : list A) :
  filter_result f l = Ok kept →
  kept `sublist_of` l ∧ Forall (λ x, f x = Ok true) kept.
Proof.
  revert kept. induction l as [|x l IH]; simpl; intros kept.
  - intros [= <-]. by split.
  - destruct (f x) as [b|] eqn:Hx; simpl; [|done].
    destruct (filter_result f l) as [xs|]; simpl; [|done].
    destruct (IH xs eq_refl) as [Hsub Hall]. intros [= <-]. destruct b.
    + split; [by apply sublist_skip | by constructor].
    + split; [by apply sublist_cons | done].
Qed.

Lemma acp_loop_entries (cfg : Config) (word1 target_word : str) (acp_lines : list str)
    (plain fuzzy : list str) (words : gset str) :
  acp_loop cfg word1 target_word acp_lines plain fuzzy words
  = (parsed ← map_result (acp_line_entry cfg word1 target_word) acp_lines;
     Ok (plain ++ (entry_text <$> filter (plain_entry cfg word1) (omap id parsed)),
         fuzzy ++ (entry_text <$> filter (λ e, ¬ plain_entry cfg word1 e) (omap id parsed)),
         words ∪ list_to_set (entry_word <$> omap id parsed))).
Proof.
  revert plain fuzzy words.
  induction acp_lines as [|line rest IH]; intros plain fuzzy words; simpl.
  - rewrite !app_nil_r. do 2 f_equal. by rewrite (right_id_L ∅ (∪)).
  - destruct (acp_line_entry cfg word1 target_word line) as [[e|]|] eqn:He; simpl.
    + destruct e as [[[pre word] args] descr].
      destruct (is_plain_match cfg word word1) eqn:Hplain; rewrite IH;
        destruct (map_result _ rest) as [parsed|]; simpl; try done.
      * rewrite filter_cons_True by exact Hplain.
        rewrite filter_cons_False by (intros H; apply H; exact Hplain).
        rewrite <- app_assoc, (assoc_L (∪)). reflexivity.
      * assert (¬ plain_entry cfg word1 (pre, word, args, descr)) as Hno
          by (unfold plain_entry, entry_word; simpl; congruence).
        rewrite filter_cons_False by exact Hno.
        rewrite filter_cons_True by exact Hno.
        rewrite <- app_assoc, (assoc_L (∪)). reflexivity.
    + rewrite IH. by destruct (map_result _ rest).
    + done.
Qed.

Lemma get_acp_words_entries (host : Host) (cfg : Config) (ed : Editor)
    (word1 word2 : str) (with_acp : bool) (acp_words : list str) (acp_set : gset str) :
  (if with_acp then get_acp_words host cfg ed word1 word2 else Ok ([], ∅))
    = Ok (acp_words, acp_set) →
  ∃ parsed,
    map_result (acp_line_entry cfg word1 (word1 ++ word2))
               (dictionary_lines host ed with_acp) = Ok parsed
    ∧ acp_words
      = (entry_text <$> filter (plain_entry cfg word1) (omap id parsed))
        ++ (entry_text <$> filter (λ e, ¬ plain_entry cfg word1 e) (omap id parsed))
    ∧ acp_set = list_to_set (entry_word <$> omap id parsed).
Proof.
  unfold dictionary_lines, get_acp_words. destruct with_acp.
  2:{ intros [= <- <-]. by exists []. }
  set (lines := match acp_file host (ed_lexer_caret ed ++ lit ".acp") with
                | Some l => Some l
                | None => acp_file host (ed_lexer_caret ed ++ lit "_.acp")
                end).
  assert (match acp_file host (ed_lexer_caret ed ++ lit ".acp") with
          | Some acp_lines => skip_header acp_lines
          | None => match acp_file host (ed_lexer_caret ed ++ lit "_.acp") with
                    | Some acp_lines => skip_header acp_lines
                    | None => []
                    end
          end = match lines with Some l => skip_header l | None => [] end) as ->.
  { unfold lines. by destruct (acp_file host (ed_lexer_caret ed ++ lit ".acp")). }
  destruct lines as [l|].
  2:{ intros [= <- <-]. by exists []. }
  rewrite acp_loop_entries.
  destruct (map_result _ (skip_header l)) as [parsed|]; simpl; [|done].
  intros [= <- <-]. exists parsed. split_and!; [done..|].
  by rewrite (left_id_L ∅ (∪)).
Qed.

Lemma acp_line_entry_Some (cfg : Config) (word1 target_word line : str)
    (e : str * str * str * str) :
  acp_line_entry cfg word1 target_word line = Ok (Some e) →
  ∃ word, entry_word e = replace word (lit "%20") (lit " ")
          ∧ word ≠ word1 ∧ word ≠ target_word.
Proof.
  unfold acp_line_entry. destruct (rstrip line); [done|].
  destruct (acp_match _) as [[[[pre word] args] descr]|]; [|done].
  destruct (_ <? _); [done|].
  destruct (is_text_with_begin _ _ _) as [[|]|]; simpl; try done.
  do 2 case_bool_decide; simpl; try done.
  intros [= <-]. by exists (rstrip word).
Qed.

Lemma replace_go_blank_free (skip : nat) (s : str) :
  " "%char ∉ replace_go skip s (lit "%20") (lit " ") →
  replace_go skip s (lit "%20") (lit " ") = drop skip s.
Proof.
  revert skip. induction s as [|c s IH]; intros skip; [by destruct skip|].
  destruct skip as [|k]; [|apply IH].
  cbn [replace_go]. destruct (startswith (c :: s) (lit "%20")).
  - intros H. destruct H. apply elem_of_cons. by left.
  - intros H. apply not_elem_of_cons in H as [_ H].
    rewrite (IH 0%nat H). done.
Qed.

Lemma replace_blank_free (s : str) :
  " "%char ∉ replace s (lit "%20") (lit " ") → replace s (lit "%20") (lit " ") = s.
Proof. intros H. unfold replace in *. by rewrite replace_go_blank_free. Qed.

(** A dictionary word cannot come out equal to blank-free typed text: the
    comparison is made before the escaped blank is decoded, and decoding
    changes a word only by putting a blank into it. *)
Lemma acp_entry_not_typed (cfg : Config) (word1 target_word line : str)
    (e : str * str * str * str) :
  " "%char ∉ word1 → " "%char ∉ target_word →
  acp_line_entry cfg word1 target_word line = Ok (Some e) →
  entry_word e ≠ word1 ∧ entry_word e ≠ target_word.
Proof.
  intros H1 Ht (word & -> & Hw1 & Hwt)%acp_line_entry_Some.
  split; intros Heq.
  - rewrite replace_blank_free in Heq by (by rewrite Heq). done.
  - rewrite replace_blank_free in Heq by (by rewrite Heq). done.
Qed.

(** ** The word under the caret *)

Lemma isword_not_blank (nonwords : str) (c : ascii) :
  isword nonwords c = true → c ≠ " "%char.
Proof.
  unfold isword. rewrite bool_decide_eq_true. intros H ->.
  apply H, elem_of_cons. by left.
Qed.

Lemma scan_left_isword (nonwords s : str) (x i : nat) (c : ascii) :
  (scan_left nonwords s x ≤ i < x)%nat → s !! i = Some c → isword nonwords c = true.
Proof.
  induction x as [|k IH]; simpl; [lia|].
  destruct (s !! k) as [c'|] eqn:Hk; [|lia].
  destruct (isword nonwords c') eqn:Hc'; [|lia].
  intros Hi Hc. destruct (decide (i = k)) as [->|]; [congruence|].
  apply IH; [lia | done].
Qed.

Lemma scan_right_isword (nonwords rest : str) (x : nat) :
  ∃ n, scan_right nonwords rest x = (x + n)%nat
       ∧ Forall (λ c, isword nonwords c = true) (take n rest).
Proof.
  revert x. induction rest as [|c rest IH]; intros x; simpl.
  - exists 0%nat. split; [lia | done].
  - destruct (isword nonwords c) eqn:Hc.
    + destruct (IH (S x)) as (n & -> & Hn). exists (S n). split; [lia|].
      by constructor.
    + exists 0%nat. split; [lia | done].
Qed.

Lemma get_word_blank_free (nonwords : str) (ed : Editor) (x y : Z) (word1 word2 : str) :
  get_word nonwords ed x y = Some (word1, word2) →
  (" "%char ∉ word1) ∧ (" "%char ∉ word2).
Proof.
  unfold get_word. destruct (negb _); [done|].
  destruct (ed_lines ed !! Z.to_nat y) as [s|]; [|done].
  destruct (negb _); [done|]. cbv zeta. intros [= <- <-]. split.
  - unfold slice. intros (i & Hi & Hlt)%elem_of_take.
    rewrite lookup_drop in Hi.
    eapply isword_not_blank; [|done].
    eapply (scan_left_isword nonwords s (Z.to_nat x)); [|done]. lia.
  - destruct (scan_right_isword nonwords (drop (Z.to_nat x) s) (Z.to_nat x))
      as (n & -> & Hn).
    unfold slice. replace (Z.to_nat x + n - Z.to_nat x)%nat with n by lia.
    intros Hin. rewrite Forall_forall in Hn.
    by eapply isword_not_blank; [apply Hn|].
Qed.

(** ** The result of a request *)

(** What a request that returns words is made of: the typed word, the
    sorted distinct tokens of the tabs, the dictionary answer, and the
    tokens kept by the two filters, the plain ones first. *)
Lemma completion_words_shape (host : Host) (cfg : Config) (ed_self : Editor)
    (x0 y0 : Z) (with_acp ignore_lexer : bool) (words_by_tabs : list (list str))
    (tab_titles words acp_words : list str) (word1 word2 : str) :
  completion_words host cfg ed_self x0 y0 with_acp ignore_lexer
    = Ok (Some (words_by_tabs, tab_titles, words, acp_words, word1, word2)) →
  ∃ (all_words : list str) (acp_set : gset str) (kept : list str),
    get_word (ed_nonword_chars ed_self) ed_self x0 y0 = Some (word1, word2)
    ∧ StronglySorted str_le all_words
    ∧ NoDup all_words
    ∧ (if with_acp then get_acp_words host cfg ed_self word1 word2 else Ok ([], ∅))
      = Ok (acp_words, acp_set)
    ∧ filter_result (λ w, is_text_with_begin cfg w word1)
        (filter (λ w, (w ∉ acp_set) ∧ w ≠ word1 ∧ w ≠ word1 ++ word2) all_words)
      = Ok kept
    ∧ words = filter (plain_word cfg word1) kept
              ++ filter (λ w, ¬ plain_word cfg word1 w) kept.
Proof.
  unfold completion_words.
  destruct (ed_lexer_file ed_self) as [lex|]; [|done].
  destruct (negb ignore_lexer && negb (is_lexer_allowed cfg lex)); [done|].
  destruct (get_word _ ed_self x0 y0) as [[w1 w2]|] eqn:Hword; [|done].
  destruct w1 as [|w0 w1']; [done|].
  destruct (is_digit w0); [done|].
  change (request_regex cfg (w0 :: w1') (ed_nonword_chars ed_self))
    with (Ok (get_regex cfg [w0] (ed_nonword_chars ed_self))).
  destruct (get_editors host cfg ed_self lex) as [editors|]; [|done].
  cbn [mbind result_bind].
  destruct (map_result _ editors) as [wbt|]; [|done].
  destruct (if with_acp then _ else _) as [[aw acp_set]|] eqn:Hacp; [|done].
  unfold mbind, result_bind. cbn beta iota.
  set (all_words := match concat wbt with
                    | [] => concat wbt
                    | _ :: _ => sorted (elements (list_to_set (concat wbt)))
                    end).
  assert (StronglySorted str_le all_words ∧ NoDup all_words) as [Hsorted Hnodup].
  { unfold all_words. destruct (concat wbt); [split; constructor|].
    split; [apply sorted_StronglySorted|].
    unfold sorted. rewrite merge_sort_Permutation. apply NoDup_elements. }
  clearbody all_words.
  set (titles := (λ e, replace_char "|" "/" (ed_tab_title e)) <$> editors).
  set (kept_by_text := filter_result _ _).
  intros H.
  assert (match kept_by_text with
          | Ok a =>
              let '(words_plain, words_fuzzy) := split_plain cfg (w0 :: w1') a in
              Ok (Some (wbt, titles, words_plain ++ words_fuzzy, aw, w0 :: w1', w2))
          | Raise e => Raise e
          end = Ok (Some (words_by_tabs, tab_titles, words, acp_words, word1, word2)))
    as Hres.
  { by destruct all_words, aw. }
  clear H. destruct kept_by_text as [kept|] eqn:Hkept; [|done].
  rewrite split_plain_filter in Hres. injection Hres as <- <- <- <- <- <-.
  exists all_words, acp_set, kept.
  by split_and!.
Qed.

Lemma get_completions_words (host : Host) (cfg : Config) (ed_self : Editor)
    (x0 y0 : Z) (with_acp ignore_lexer : bool)
    (words_decorated acp_words : list str) (word1 word2 : str) :
  get_completions host cfg ed_self x0 y0 with_acp ignore_lexer
    = Ok (Some (words_decorated, acp_words, word1, word2)) →
  ∃ (words_by_tabs : list (list str)) (tab_titles words : list str),
    completion_words host cfg ed_self x0 y0 with_acp ignore_lexer
      = Ok (Some (words_by_tabs, tab_titles, words, acp_words, word1, word2))
    ∧ words_decorated = decorate cfg words_by_tabs tab_titles <$> words.
Proof.
  unfold get_completions.
  destruct (completion_words _ _ _ _ _ _ _)
    as [[[[[[[wbt titles] words] aw] w1] w2]|]|]; simpl; [|done..].
  intros [= <- <- <- <-]. by exists wbt, titles, words.
Qed.

Lemma plain_first_lookup {A} (P : A → Prop) `{∀ x, Decision (P x)} (k : list A)
    (i j : nat) (a b : A) :
  (filter P k ++ filter (λ x, ¬ P x) k) !! i = Some a →
  (filter P k ++ filter (λ x, ¬ P x) k) !! j = Some b →
  P a → ¬ P b → (i < j)%nat.
Proof.
  intros Ha Hb HPa HPb.
  destruct (decide (i < length (filter P k))%nat) as [Hi|Hi].
  - destruct (decide (j < length (filter P k))%nat) as [Hj|Hj]; [|lia].
    rewrite lookup_app_l in Hb by done.
    apply list_elem_of_lookup_2, list_elem_of_filter in Hb as [? _]. done.
  - rewrite lookup_app_r in Ha by lia.
    apply list_elem_of_lookup_2, list_elem_of_filter in Ha as [? _]. done.
Qed.

Lemma map_result_elem_of {A B} (f : A → result B) (l : list A) (ys : list B) (y : B) :
  map_result f l = Ok ys → y ∈ ys → ∃ x, x ∈ l ∧ f x = Ok y.
Proof.
  revert ys. induction l as [|x l IH]; simpl; intros ys.
  - intros [= <-] Hy. by apply elem_of_nil in Hy.
  - destruct (f x) as [y'|] eqn:Hx; simpl; [|done].
    destruct (map_result f l) as [ys'|]; simpl; [|done].
    intros [= <-] [->|Hy]%elem_of_cons.
    + exists x. split; [apply elem_of_cons; by left | done].
    + destruct (IH ys' eq_refl Hy) as (x' & Hx' & Hfx').
      exists x'. split; [apply elem_of_cons; by right | done].
Qed.

(** C5: in a result the buffer candidates and the dictionary candidates both
    list the entries that satisfy the plain-prefix strategy before the
    others; within each group the buffer words are in alphabetical order and
    the dictionary entries in the order of the lines of the file. *)
Theorem result_is_plain_first (host : Host) (cfg : Config) (ed_self : Editor)
    (x0 y0 : Z) (with_acp ignore_lexer : bool)
    (words_decorated acp_words : list str) (word1 word2 : str) :
  get_completions host cfg ed_self x0 y0 with_acp ignore_lexer
    = Ok (Some (words_decorated, acp_words, word1, word2)) →
  plain_first host cfg ed_self x0 y0 with_acp ignore_lexer
    words_decorated acp_words word1 word2.
Proof.
  intros (words_by_tabs & tab_titles & words & Hwords & ->)%get_completions_words.
  pose proof Hwords as Hshape.
  apply completion_words_shape in Hshape
    as (all_words & acp_set & kept & Hword & Hsorted & Hnodup & Hacp & Hkept & ->).
  apply get_acp_words_entries in Hacp as (parsed & Hparsed & -> & _).
  apply filter_result_Ok in Hkept as [Hsub _].
  assert (kept `sublist_of` all_words) as Hsub'.
  { etrans; [done|]. apply sublist_filter. }
  assert (StronglySorted str_le kept) as Hkept_sorted
    by by eapply StronglySorted_sublist.
  exists words_by_tabs, tab_titles,
    (filter (plain_word cfg word1) kept ++ filter (λ w, ¬ plain_word cfg word1 w) kept),
    kept, parsed.
  cbv zeta. split_and!.
  - done.
  - done.
  - done.
  - done.
  - by eapply sublist_NoDup.
  - eapply StronglySorted_sublist; [apply sublist_filter | done].
  - eapply StronglySorted_sublist; [apply sublist_filter | done].
  - apply plain_first_lookup.
  - done.
  - by rewrite fmap_app.
  - apply plain_first_lookup.
Qed.

(** C6: in a result no candidate word, of the buffer or of the dictionary,
    is the typed left part or the left and right parts together, and no
    buffer candidate is a word of the dictionary candidates. *)
Theorem result_excludes_typed_text (host : Host) (cfg : Config) (ed_self : Editor)
    (x0 y0 : Z) (with_acp ignore_lexer : bool)
    (words_decorated acp_words : list str) (word1 word2 : str) :
  get_completions host cfg ed_self x0 y0 with_acp ignore_lexer
    = Ok (Some (words_decorated, acp_words, word1, word2)) →
  typed_text_excluded host cfg ed_self x0 y0 with_acp ignore_lexer
    words_decorated acp_words word1 word2.
Proof.
  intros (words_by_tabs & tab_titles & words & Hwords & ->)%get_completions_words.
  pose proof Hwords as Hshape.
  apply completion_words_shape in Hshape
    as (all_words & acp_set & kept & Hword & Hsorted & Hnodup & Hacp & Hkept & ->).
  apply get_acp_words_entries in Hacp as (parsed & Hparsed & -> & ->).
  apply filter_result_Ok in Hkept as [Hsub _].
  apply get_word_blank_free in Hword as [Hblank1 Hblank2].
  exists words_by_tabs, tab_titles,
    (filter (plain_word cfg word1) kept ++ filter (λ w, ¬ plain_word cfg word1 w) kept),
    parsed.
  cbv zeta. split_and!.
  - done.
  - done.
  - done.
  - by rewrite <- fmap_app, filter_app_complement.
  - apply Forall_forall. intros w Hw.
    assert (w ∈ kept) as Hkept.
    { apply elem_of_app in Hw as [Hw|Hw]; by apply list_elem_of_filter in Hw as [_ ?]. }
    eapply elem_of_sublist in Hkept; [|done].
    apply list_elem_of_filter in Hkept as [(Hset & Hw1 & Hw12) _].
    split_and!; [done..|]. intros e He ->. apply Hset.
    apply elem_of_list_to_set, list_elem_of_fmap. by exists e.
  - apply Forall_forall. intros e He.
    apply list_elem_of_omap in He as (oe & Hoe & [= ->]).
    destruct (map_result_elem_of _ _ _ _ Hparsed Hoe) as (line & _ & Hline).
    eapply acp_entry_not_typed; [done| |done].
    rewrite elem_of_app. by intros [?|?].
Qed.

(** ** Instances *)

Lemma fuzzy_supersedes_chain_at_FooBarBaz :
  option_fuzzy all_strategies = true
  ∧ is_text_with_begin all_strategies (lit "FooBarBaz") (lit "fbb")
    = Ok (is_fuzzy_match (lit "FooBarBaz") (lit "fbb")).
Proof.
  split; [reflexivity|].
  apply (fuzzy_supersedes_chain all_strategies (lit "FooBarBaz") (lit "fbb")).
  reflexivity.
Defined.

Lemma plain_match_is_fuzzy_match_at_Foo :
  is_plain_match default_options (lit "FooBarBaz") (lit "Foo") = true
  ∧ is_fuzzy_match (lit "FooBarBaz") (lit "Foo") = true.
Proof.
  split; [reflexivity|].
  apply (plain_match_is_fuzzy_match default_options (lit "FooBarBaz") (lit "Foo")).
  reflexivity.
Defined.

Lemma spl_match_as_specified_at_prlex :
  [lit "prop"; lit "lexer"; lit "file"] ≠ []
  ∧ spl_match (lit "prlex") [lit "prop"; lit "lexer"; lit "file"]
    = Ok (spl_match_spec (lit "prlex") [lit "prop"; lit "lexer"; lit "file"]).
Proof.
  split; [discriminate|].
  apply (proj1 spl_match_as_specified (lit "prlex") [lit "prop"; lit "lexer"; lit "file"]).
  discriminate.
Defined.

Lemma case_split_is_case_sensitive_at_PLF :
  case_split_path (lit "PropLexerFile") (lit "PLF") = Ok true
  ∧ is_text_with_begin split_ignoring_case (lit "PropLexerFile") (lit "PLF") = Ok true
  ∧ is_text_with_begin split_ignoring_case (lit "PropLexerFile") (lit "plF") = Ok false.
Proof.
  split; [reflexivity|]. split.
  - apply (proj1 (proj2 case_split_is_case_sensitive)
             split_ignoring_case (lit "PropLexerFile") (lit "PLF"));
      reflexivity.
  - apply (proj1 (proj2 (proj2 case_split_is_case_sensitive)) split_ignoring_case);
      reflexivity.
Defined.


Lemma result_is_plain_first_at_pl :
  get_completions demo_host default_options demo_tab 16 0 true false
    = Ok (Some (demo_words, demo_acp_words, lit "pl", []))
  ∧ plain_first demo_host default_options demo_tab 16 0 true false
      demo_words demo_acp_words (lit "pl") [].
Proof.
  split; [vm_compute; reflexivity|].
  apply (result_is_plain_first demo_host default_options demo_tab 16 0 true false).
  vm_compute. reflexivity.
Defined.

Lemma result_excludes_typed_text_at_pl :
  get_completions demo_host default_options demo_tab 16 0 true false
    = Ok (Some (demo_words, demo_acp_words, lit "pl", []))
  ∧ typed_text_excluded demo_host default_options demo_tab 16 0 true false
      demo_words demo_acp_words (lit "pl") [].
Proof.
  split; [vm_compute; reflexivity|].
  apply (result_excludes_typed_text demo_host default_options demo_tab 16 0 true false).
  vm_compute. reflexivity.
Defined.

(** * Further properties *)

(** ** What [spl_match] accepts *)

Lemma common_prefix_len_take (a b : str) :
  take (common_prefix_len a b) a `prefix_of` b.
Proof.
  revert b. induction a as [|x a IH]; intros [|y b]; simpl;
    try apply prefix_nil.
  case_bool_decide as Hxy; [|apply prefix_nil].
  subst y. simpl. apply prefix_cons, IH.
Qed.

Lemma common_prefix_len_prefix (p a b : str) :
  p `prefix_of` a → p `prefix_of` b → (length p ≤ common_prefix_len a b)%nat.
Proof.
  revert a b. induction p as [|c p IH]; intros a b Ha Hb; simpl; [lia|].
  destruct a as [|x a]; [by apply prefix_nil_not in Ha|].
  destruct b as [|y b]; [by apply prefix_nil_not in Hb|].
  pose proof (prefix_cons_inv_1 _ _ _ _ Ha). pose proof (prefix_cons_inv_1 _ _ _ _ Hb).
  subst x y. simpl. rewrite bool_decide_eq_true_2 by done.
  apply prefix_cons_inv_2 in Ha, Hb. specialize (IH a b Ha Hb). lia.
Qed.

Lemma existsb_seq_exists (f : nat → bool) (start n : nat) :
  existsb f (seq start n) = true ↔ ∃ i, (start ≤ i < start + n)%nat ∧ f i = true.
Proof.
  rewrite existsb_exists. split.
  - intros (i & Hi & Hf). apply in_seq in Hi. eauto.
  - intros (i & Hi & Hf). exists i. split; [by apply in_seq | done].
Qed.

Lemma spl_match_spec_fits (begin : str) (words : list str) :
  spl_match_spec begin words = true ↔ fits begin words.
Proof.
  revert begin. induction words as [|word rest IH]; intros begin.
  { split; [done | inversion 1]. }
  cbn [spl_match_spec]. cbv zeta.
  pose proof (common_prefix_len_le begin word) as Hle.
  pose proof (common_prefix_len_take begin word) as Htake.
  set (cl := common_prefix_len begin word) in *.
  destruct (cl =? 0)%nat eqn:Hzero.
  { apply Nat.eqb_eq in Hzero. split; [done|].
    assert (∀ p, p ≠ [] → p `prefix_of` begin → p `prefix_of` word → False) as Hno.
    { intros p Hp Hb Hw. pose proof (common_prefix_len_prefix p begin word Hb Hw).
      destruct p; [done|]. simpl in *. fold cl in H. lia. }
    inversion 1; subst; exfalso.
    - by eapply Hno.
    - eapply (Hno p); [done | by apply prefix_app_r | done]. }
  apply Nat.eqb_neq in Hzero.
  destruct (cl =? length begin)%nat eqn:Hfull.
  { apply Nat.eqb_eq in Hfull. split; [intros _|done].
    apply fits_last.
    - intros ->. simpl in Hfull. lia.
    - rewrite Hfull, firstn_all in Htake. done. }
  apply Nat.eqb_neq in Hfull.
  assert (∀ p rest', begin = p ++ rest' → p ≠ [] → p `prefix_of` word →
                     (1 ≤ length p ≤ cl)%nat) as Hsplit.
  { intros p rest' -> Hp Hw.
    pose proof (common_prefix_len_prefix p (p ++ rest') word) as Hlen.
    fold cl in Hlen. destruct p; [done|]. simpl in *.
    specialize (Hlen (prefix_app_r _ _ _ (reflexivity _)) Hw). lia. }
  assert (begin `prefix_of` word → (length begin ≤ cl)%nat) as Hwhole.
  { intros Hw. by apply (common_prefix_len_prefix begin begin word). }
  clearbody cl.
  destruct rest as [|w2 rest'].
  { split; [done|]. inversion 1 as [p w ws Hp Hw|p r w ws Hp Hw Hr]; subst.
    - specialize (Hwhole Hw). lia.
    - inversion Hr. }
  rewrite existsb_seq_exists. split.
  - intros (i & Hi & Hrec). apply IH in Hrec. unfold suffix_after in Hrec.
    rewrite <- (take_drop (S (cl - i)) begin). apply fits_next; [| |done].
    + destruct begin; [simpl in Hle; lia | done].
    + etrans; [|exact Htake].
      replace (S (cl - i)) with (S (cl - i) `min` cl)%nat by lia.
      rewrite <- take_take. apply prefix_take.
  - inversion 1 as [p w ws Hp Hw|p r w ws Hp Hw Hr]; subst.
    + specialize (Hwhole Hw). lia.
    + destruct (Hsplit p r eq_refl Hp Hw) as [H1 H2].
      exists (S cl - length p)%nat. split; [lia|].
      apply IH. unfold suffix_after.
      replace (S (cl - (S cl - length p))) with (length p) by lia.
      by rewrite drop_app_length.
Qed.

(** X1: [spl_match] answers true exactly when the prefix fits consecutively
    into the segments, as its docstring says: the prefix is cut into
    non-empty pieces, one for each of the first segments in turn, each piece
    a leading part of its segment. *)
Theorem spl_match_true_iff_fits (begin : str) (words : list str) :
  spl_match begin words = Ok true ↔ fits begin words.
Proof.
  destruct words as [|word rest].
  - split; [done | inversion 1].
  - pose proof (spl_match_spec_fits begin (word :: rest)) as Hspec.
    rewrite spl_match_refines_spec by done. split.
    + intros [= Heq]. by apply Hspec.
    + intros Hfits. f_equal. by apply Hspec.
Qed.

(** ** Characters and segments *)

Lemma upper_lower_char (c : ascii) : upper_char (lower_char c) = upper_char c.
Proof. by destruct c as [[] [] [] [] [] [] [] []]. Qed.

Lemma upper_lower (s : str) : upper (lower s) = upper s.
Proof.
  unfold upper, lower. rewrite <- list_fmap_compose.
  apply list_fmap_ext. intros _ c _. apply upper_lower_char.
Qed.

Lemma upper_upper_char (c : ascii) : upper_char (upper_char c) = upper_char c.
Proof. by destruct c as [[] [] [] [] [] [] [] []]. Qed.

Lemma upper_upper (s : str) : upper (upper s) = upper s.
Proof.
  unfold upper. rewrite <- list_fmap_compose.
  apply list_fmap_ext. intros _ c _. apply upper_upper_char.
Qed.

Lemma lower_char_underscore (c : ascii) : lower_char c = "_"%char → c = "_"%char.
Proof. by destruct c as [[] [] [] [] [] [] [] []]. Qed.

Lemma drop_while_suffix (f : ascii → bool) (s : str) : drop_while f s `suffix_of` s.
Proof.
  induction s as [|c s IH]; simpl; [done|].
  destruct (f c); [by apply suffix_cons_r | done].
Qed.

Lemma drop_while_head (f : ascii → bool) (s : str) (c : ascii) :
  head (drop_while f s) = Some c → f c = false.
Proof.
  induction s as [|x s IH]; simpl; [done|].
  destruct (f x) eqn:Hx; [done|]. simpl. by intros [= <-].
Qed.

Lemma suffix_is_sublist (l k : str) : l `suffix_of` k → l `sublist_of` k.
Proof. intros [pre ->]. by apply sublist_inserts_l. Qed.

Lemma strip_char_sublist (ch : ascii) (s : str) : strip_char ch s `sublist_of` s.
Proof.
  unfold strip_char.
  set (f := λ c : ascii, bool_decide (c = ch)).
  etrans; [|apply suffix_is_sublist, (drop_while_suffix f s)].
  apply prefix_is_sublist, prefix_suffix_reverse.
  rewrite reverse_involutive. apply drop_while_suffix.
Qed.

(** A stripped string that is not empty ends with another character. *)
Lemma strip_char_other (ch : ascii) (s : str) :
  strip_char ch s ≠ [] → ∃ c, c ∈ strip_char ch s ∧ c ≠ ch.
Proof.
  unfold strip_char.
  set (f := λ c : ascii, bool_decide (c = ch)).
  set (t := drop_while f (reverse (drop_while f s))).
  intros Hne. destruct t as [|c t'] eqn:Ht; [done|].
  exists c. split.
  - apply elem_of_reverse, elem_of_cons. by left.
  - assert (f c = false) as Hc.
    { apply (drop_while_head f (reverse (drop_while f s))). fold t. by rewrite Ht. }
    unfold f in Hc. by apply bool_decide_eq_false in Hc.
Qed.

Lemma findall_words_go_concat (cur s : str) :
  concat (findall_words_go cur s) = cur ++ filter (λ c, c ≠ "_"%char) s
  ∧ Forall (λ w, w ≠ []) (findall_words_go cur s).
Proof.
  revert cur. induction s as [|c s IH]; intros cur; simpl.
  - destruct cur; simpl; [done|]. rewrite !app_nil_r. split; [done|].
    by constructor.
  - case_bool_decide as Hc.
    + subst c. rewrite filter_cons_False by (by intros ?).
      destruct (IH []) as [Hcat Hne]. destruct cur; [done|].
      simpl. rewrite Hcat. split; [done|]. by constructor.
    + rewrite filter_cons_True by done.
      destruct (IH (cur ++ [c])) as [Hcat Hne]. rewrite Hcat.
      by rewrite <- app_assoc.
Qed.

Lemma findall_words_sublist (s : str) : concat (findall_words s) `sublist_of` s.
Proof.
  unfold findall_words. destruct (findall_words_go_concat [] s) as [-> _].
  apply sublist_filter.
Qed.

Lemma findall_words_nonempty (s : str) (c : ascii) :
  c ∈ s → c ≠ "_"%char → findall_words s ≠ [].
Proof.
  intros Hin Hc Hnil. unfold findall_words in Hnil.
  destruct (findall_words_go_concat [] s) as [Hcat _].
  rewrite Hnil in Hcat. simpl in Hcat.
  assert (c ∈ filter (λ c, c ≠ "_"%char) s) as Hc' by by apply list_elem_of_filter.
  rewrite <- Hcat in Hc'. by apply elem_of_nil in Hc'.
Qed.

Lemma findall_camel_go_concat (seg s : str) :
  concat (findall_camel_go (Some seg) s) = seg ++ s.
Proof.
  revert seg. induction s as [|c s IH]; intros seg; simpl.
  - by rewrite !app_nil_r.
  - destruct (is_AZ c); simpl; rewrite IH; [done|]. by rewrite <- app_assoc.
Qed.

Lemma findall_camel_sublist (s : str) : concat (findall_camel s) `sublist_of` s.
Proof.
  unfold findall_camel. induction s as [|c s IH]; simpl; [done|].
  case_bool_decide.
  - by apply sublist_cons.
  - by rewrite findall_camel_go_concat.
Qed.

Lemma findall_camel_concat (s : str) :
  head s ≠ Some newline → concat (findall_camel s) = s.
Proof.
  unfold findall_camel. destruct s as [|c s]; simpl; [done|].
  intros Hc. case_bool_decide as Hnl.
  - destruct Hc. f_equal. unfold code in Hnl.
    by rewrite <- (ascii_N_embedding c), Hnl.
  - by rewrite findall_camel_go_concat.
Qed.

(** ** The strategy chain without the fuzzy option *)

Lemma for_else_Ok (body : nat → result bool) (idx : list nat) :
  (∀ i, i ∈ idx → ∃ b, body i = Ok b) → ∃ b, for_else body idx = Ok b.
Proof.
  induction idx as [|i idx IH]; intros Hbody; simpl; [by eauto|].
  destruct (Hbody i) as [b ->]; [apply elem_of_cons; by left|]. simpl.
  destruct b; [|by eauto]. apply IH. intros j Hj. apply Hbody, elem_of_cons. by right.
Qed.

Lemma getitem_lt {A} (l : list A) (i : nat) :
  (i < length l)%nat → ∃ a, getitem l i = Ok a ∧ l !! i = Some a.
Proof.
  intros Hi. destruct (lookup_lt_is_Some_2 l i Hi) as [a Ha].
  exists a. unfold getitem. by rewrite Ha.
Qed.

Lemma case_split_path_Ok (s begin : str) :
  s ≠ [] → begin ≠ [] → ∃ b, case_split_path s begin = Ok b.
Proof.
  intros Hs Hb. destruct s as [|a s]; [done|]. destruct begin as [|b begin]; [done|].
  unfold case_split_path.
  change (getitem (a :: s) 0) with (Ok a). change (getitem (b :: begin) 0) with (Ok b).
  simpl mbind. case_bool_decide; [|by eauto]. cbv zeta.
  destruct (_ <=? _)%nat eqn:Hlen; [|by eauto].
  apply Nat.leb_le in Hlen. apply for_else_Ok. intros i [_ Hi]%elem_of_seq.
  destruct (getitem_lt (findall_camel (a :: s)) i) as (w & -> & _); [lia|].
  destruct (getitem_lt (findall_camel (b :: begin)) i) as (p & -> & _); [lia|].
  simpl. by eauto.
Qed.

Lemma case_split_path_raises (s begin : str) :
  s = [] ∨ begin = [] → case_split_path s begin = Raise IndexError.
Proof. intros [-> | ->]; [done|]. by destruct s. Qed.

Lemma prefixes_concat_sublist (ps ws : list str) :
  (∀ i p, ps !! i = Some p → ∃ w, ws !! i = Some w ∧ p `prefix_of` w) →
  concat ps `sublist_of` concat ws.
Proof.
  revert ws. induction ps as [|p ps IH]; intros ws H; simpl; [apply sublist_nil_l|].
  destruct (H 0%nat p eq_refl) as (w & Hw & Hpw).
  destruct ws as [|w' ws]; [done|]. injection Hw as ->. simpl.
  apply sublist_app; [by apply prefix_is_sublist|].
  apply IH. intros i q Hq. apply (H (S i) q Hq).
Qed.

Lemma case_split_path_sublist (s begin : str) :
  case_split_path s begin = Ok true → head begin ≠ Some newline →
  begin `sublist_of` s.
Proof.
  intros [_ Hseg]%case_split_path_true Hhead.
  rewrite <- (findall_camel_concat begin Hhead).
  etrans; [by apply prefixes_concat_sublist|]. apply findall_camel_sublist.
Qed.

Lemma initials_sublist (b : str) (ws : list str) :
  (∀ i c, b !! i = Some c → ∃ w, ws !! i = Some w ∧ head w = Some c) →
  b `sublist_of` concat ws.
Proof.
  revert ws. induction b as [|c b IH]; intros ws H; [apply sublist_nil_l|].
  destruct (H 0%nat c eq_refl) as (w & Hw & Hc).
  destruct ws as [|w' ws]; [done|]. injection Hw as ->.
  destruct w as [|c' w]; [done|]. injection Hc as ->. simpl.
  apply sublist_skip, sublist_inserts_l, IH.
  intros i d Hd. apply (H (S i) d Hd).
Qed.

Lemma fits_sublist (begin : str) (words : list str) :
  fits begin words → begin `sublist_of` concat words.
Proof.
  induction 1 as [p w ws Hp Hw|p rest w ws Hp Hw Hfits IH]; simpl.
  - apply sublist_inserts_r. by apply prefix_is_sublist.
  - apply sublist_app; [by apply prefix_is_sublist | done].
Qed.

Lemma upper_sublist (a b : str) : a `sublist_of` b → upper a `sublist_of` upper b.
Proof. unfold upper. intros H. by apply fmap_sublist. Qed.

Lemma lower_sublist_upper (a b : str) :
  lower a `sublist_of` lower b → upper a `sublist_of` upper b.
Proof. intros H%upper_sublist. by rewrite !upper_lower in H. Qed.

(** The underscore-split block never raises; when it answers true the
    prefix is, up to letter case, a subsequence of the candidate; and the
    prefix it hands on differs from the given one in letter case at most,
    and not at all when matching is case-sensitive. *)
Lemma underscore_split_path_spec (cfg : Config) (s begin : str) :
  ∃ (hit : bool) (begin' : str),
    underscore_split_path cfg s begin = Ok (hit, begin')
    ∧ (hit = true → upper begin `sublist_of` upper s)
    ∧ upper begin' = upper begin
    ∧ (option_case_sens cfg = true → begin' = begin).
Proof.
  unfold underscore_split_path.
  set (ss := strip_char "_" s).
  case_bool_decide as Hin; [|exists false, begin; by split_and!].
  cbv zeta.
  set (b' := if option_case_sens cfg then begin else lower begin).
  set (ss' := if option_case_sens cfg then ss else lower ss).
  assert (upper b' = upper begin) as Hb'.
  { unfold b'. destruct (option_case_sens cfg); [done | apply upper_lower]. }
  assert (option_case_sens cfg = true → b' = begin) as Hcs.
  { unfold b'. by intros ->. }
  assert (∀ x, x `sublist_of` ss' → x = b' → upper begin `sublist_of` upper s) as Hsub.
  { intros x Hx ->. etrans; [|apply upper_sublist, (strip_char_sublist "_" s)].
    fold ss. unfold b', ss' in Hx. destruct (option_case_sens cfg).
    - by apply upper_sublist.
    - by apply lower_sublist_upper. }
  assert (findall_words ss' ≠ []) as Hne.
  { destruct (strip_char_other "_" s) as (c & Hc & Hcne).
    { fold ss. intros Hnil. rewrite Hnil in Hin. by apply elem_of_nil in Hin. }
    fold ss in Hc. unfold ss'. destruct (option_case_sens cfg).
    - by eapply findall_words_nonempty.
    - eapply (findall_words_nonempty _ (lower_char c)).
      + unfold lower. by apply list_elem_of_fmap_2.
      + intros Heq. by apply lower_char_underscore in Heq. }
  pose proof (proj2 (findall_words_go_concat [] ss')) as Hsegs.
  fold (findall_words ss') in Hsegs.
  pose proof (findall_words_sublist ss') as Hcat.
  set (wordwords := findall_words ss') in *.
  set (body := λ i : nat, b ← getitem b' i; w ← getitem wordwords i;
                          w0 ← getitem w 0; Ok (bool_decide (b = w0))).
  assert (∀ i, (i < length b')%nat → (length b' ≤ length wordwords)%nat →
               ∃ c w c0 ws, b' !! i = Some c ∧ wordwords !! i = Some w
                            ∧ w = c0 :: ws ∧ body i = Ok (bool_decide (c = c0)))
    as Hbody.
  { intros i Hi Hlen.
    destruct (getitem_lt b' i Hi) as (c & Hgc & Hc).
    destruct (getitem_lt wordwords i) as (w & Hgw & Hw); [lia|].
    assert (w ≠ []) as Hwne.
    { rewrite Forall_forall in Hsegs. by eapply Hsegs, list_elem_of_lookup_2. }
    destruct w as [|c0 ws]; [done|].
    exists c, (c0 :: ws), c0, ws. unfold body. rewrite Hgc, Hgw. by split_and!. }
  assert (∃ initials : bool,
            (if (length b' <=? length wordwords)%nat
             then for_else body (seq 0 (length b')) else Ok false) = Ok initials
            ∧ (initials = true → b' `sublist_of` concat wordwords))
    as (initials & -> & Hinit).
  { destruct (_ <=? _)%nat eqn:Hlen; [|by exists false].
    apply Nat.leb_le in Hlen.
    destruct (for_else_Ok body (seq 0 (length b'))) as [r Hr].
    { intros i [_ Hi]%elem_of_seq.
      destruct (Hbody i) as (c & w & c0 & ws & _ & _ & _ & ->); [lia|done|by eauto]. }
    exists r. split; [done|]. intros ->.
    pose proof (proj1 (for_else_true _ _) Hr) as Hall.
    apply initials_sublist. intros i c Hc.
    assert (i < length b')%nat as Hi by by eapply lookup_lt_Some.
    destruct (Hbody i Hi Hlen) as (c' & w & c0 & ws & Hc' & Hw & -> & Hbi).
    rewrite Hall in Hbi by (apply elem_of_seq; lia).
    injection Hbi as Hbi. symmetry in Hbi. apply bool_decide_eq_true in Hbi.
    exists (c0 :: ws). split; [done|]. simpl. congruence. }
  simpl. destruct initials.
  - exists true, b'. split_and!; [done| |done..].
    intros _. eapply Hsub; [|done]. etrans; [by apply Hinit | done].
  - rewrite spl_match_refines_spec by done. simpl.
    exists (spl_match_spec b' wordwords), b'. split_and!; [done| |done..].
    intros Hspec%spl_match_spec_fits%fits_sublist.
    eapply Hsub; [|done]. by etrans.
Qed.

(** Without the fuzzy option the chain is: the case-split test when it is
    on (the only step that can raise), then an answer that is true when the
    underscore-split block or the plain test accepts. *)
Lemma is_text_with_begin_chain (cfg : Config) (s begin : str) :
  option_fuzzy cfg = false →
  ∃ us : bool,
    (us = true → upper begin `sublist_of` upper s)
    ∧ is_text_with_begin cfg s begin
      = match (if option_case_split cfg then case_split_path s begin else Ok false) with
        | Ok cs => Ok (cs || us || is_plain_match cfg s begin)
        | Raise e => Raise e
        end.
Proof.
  intros Hfuzzy. unfold is_text_with_begin. rewrite Hfuzzy.
  destruct (underscore_split_path_spec cfg s begin)
    as (hit & begin' & Hus & Hhit & Hupper & Hsame).
  assert ((if option_case_sens cfg then Ok (startswith s begin)
           else Ok (startswith (upper s) (upper begin)))
          = Ok (is_plain_match cfg s begin)) as Hplain.
  { unfold is_plain_match. by destruct (option_case_sens cfg). }
  assert ((if option_case_sens cfg then Ok (startswith s begin')
           else Ok (startswith (upper s) (upper begin')))
          = Ok (is_plain_match cfg s begin)) as Hplain'.
  { rewrite <- Hplain, Hupper.
    destruct (option_case_sens cfg); [by rewrite Hsame | done]. }
  destruct (option_case_split cfg), (option_underscore_split cfg); simpl.
  - exists hit. split; [done|].
    destruct (case_split_path s begin) as [[|]|]; simpl; [done| |done].
    rewrite Hus. simpl. destruct hit; simpl; [done|]. by rewrite Hplain'.
  - exists false. split; [done|].
    destruct (case_split_path s begin) as [[|]|]; simpl; [done| |done].
    by rewrite Hplain.
  - exists hit. split; [done|]. rewrite Hus. simpl.
    destruct hit; simpl; [done|]. by rewrite Hplain'.
  - exists false. split; [done|]. by rewrite Hplain.
Qed.

(** X2: [is_text_with_begin] raises exactly when the fuzzy option is off,
    the case-split option is on and the candidate or the prefix is empty;
    the exception is then the [IndexError] of [s[0]] or [begin[0]]. *)
Theorem is_text_with_begin_raises_iff (cfg : Config) (s begin : str) :
  ((∃ e, is_text_with_begin cfg s begin = Raise e)
   ↔ option_fuzzy cfg = false ∧ option_case_split cfg = true ∧ (s = [] ∨ begin = []))
  ∧ ∀ e, is_text_with_begin cfg s begin = Raise e → e = IndexError.
Proof.
  destruct (option_fuzzy cfg) eqn:Hfuzzy.
  { unfold is_text_with_begin. rewrite Hfuzzy. split; [|done].
    split; [by intros [e ?] | by intros [? _]]. }
  destruct (is_text_with_begin_chain cfg s begin Hfuzzy) as (us & _ & ->).
  destruct (option_case_split cfg).
  2:{ split; [|done]. split; [by intros [e ?] | by intros (_ & ? & _)]. }
  destruct (decide (s = [] ∨ begin = [])) as [Hempty|Hfull].
  - rewrite (case_split_path_raises s begin Hempty). split.
    + split; [done | by eauto].
    + by intros e [= <-].
  - assert (s ≠ [] ∧ begin ≠ []) as [Hs Hb].
    { split; intros ->; apply Hfull; by eauto. }
    destruct (case_split_path_Ok s begin Hs Hb) as [b ->]. split; [|done].
    split; [by intros [e ?] | by intros (_ & _ & ?)].
Qed.

(** X3: on text of the ASCII range and whatever the options, a candidate
    that [is_text_with_begin] accepts is a fuzzy match, for a prefix that
    does not begin with a line feed: the case-split, underscore-split and
    plain strategies accept nothing that the fuzzy strategy would reject.
    (Outside the ASCII range the lowering of the prefix in the
    underscore-split strategy can accept what the fuzzy strategy, which
    raises both texts, rejects.) *)
Theorem accepted_is_fuzzy_match (cfg : Config) (s begin : str) :
  ascii_text s → ascii_text begin →
  head begin ≠ Some newline →
  is_text_with_begin cfg s begin = Ok true →
  is_fuzzy_match s begin = true.
Proof.
  intros _ _ Hhead. destruct (option_fuzzy cfg) eqn:Hfuzzy.
  { unfold is_text_with_begin. rewrite Hfuzzy. by intros [= ->]. }
  destruct (is_text_with_begin_chain cfg s begin Hfuzzy) as (us & Hus & ->).
  intros Hres. apply is_fuzzy_match_sublist.
  assert (∃ cs, (cs = true → case_split_path s begin = Ok true)
                ∧ cs || us || is_plain_match cfg s begin = true) as (cs & Hcs & Hor).
  { destruct (option_case_split cfg).
    - destruct (case_split_path s begin) as [cs|]; [|done].
      injection Hres as Hres. exists cs. split; [by intros -> | done].
    - injection Hres as Hres. exists false. by split. }
  apply orb_true_iff in Hor as [[->| ->]%orb_true_iff|Hplain].
  - apply upper_sublist, case_split_path_sublist; [by apply Hcs | done].
  - by apply Hus.
  - apply prefix_is_sublist. unfold is_plain_match in Hplain.
    destruct (option_case_sens cfg); apply startswith_prefix in Hplain;
      [by apply upper_prefix | done].
Qed.

(** X4: on text of the ASCII range and whatever the options, a candidate
    that satisfies the plain-prefix strategy for a non-empty prefix is
    accepted by [is_text_with_begin]. (Outside the ASCII range the prefix
    that reaches the plain comparison has been lowered by the
    underscore-split strategy, and raising it again need not give the
    raised prefix.) *)
Theorem plain_match_is_accepted (cfg : Config) (s begin : str) :
  ascii_text s → ascii_text begin →
  begin ≠ [] →
  is_plain_match cfg s begin = true →
  is_text_with_begin cfg s begin = Ok true.
Proof.
  intros _ _ Hb Hplain.
  assert (s ≠ []) as Hs.
  { intros ->. unfold is_plain_match in Hplain.
    destruct begin; [done|]. by destruct (option_case_sens cfg). }
  destruct (option_fuzzy cfg) eqn:Hfuzzy.
  { unfold is_text_with_begin. rewrite Hfuzzy. f_equal.
    apply is_fuzzy_match_sublist, prefix_is_sublist.
    unfold is_plain_match in Hplain.
    destruct (option_case_sens cfg); apply startswith_prefix in Hplain;
      [by apply upper_prefix | done]. }
  destruct (is_text_with_begin_chain cfg s begin Hfuzzy) as (us & _ & ->).
  rewrite Hplain.
  destruct (option_case_split cfg); [|by rewrite orb_true_r].
  destruct (case_split_path_Ok s begin Hs Hb) as [b ->]. by rewrite orb_true_r.
Qed.

(** ** The word under the caret, continued *)

Lemma scan_left_le (nonwords s : str) (x : nat) : (scan_left nonwords s x ≤ x)%nat.
Proof.
  induction x as [|k IH]; simpl; [done|].
  destruct (s !! k); [|done]. destruct (isword nonwords a); lia.
Qed.

Lemma scan_left_stop (nonwords s : str) (x : nat) (c : ascii) :
  (0 < scan_left nonwords s x)%nat →
  s !! (scan_left nonwords s x - 1)%nat = Some c → isword nonwords c = false.
Proof.
  induction x as [|k IH]; simpl; [lia|].
  destruct (s !! k) as [c'|] eqn:Hk.
  - destruct (isword nonwords c') eqn:Hc'; [done|].
    simpl. rewrite Nat.sub_0_r, Hk. by intros _ [= <-].
  - simpl. rewrite Nat.sub_0_r, Hk. done.
Qed.

Lemma scan_right_stop (nonwords rest : str) (x : nat) :
  ∃ n, scan_right nonwords rest x = (x + n)%nat
       ∧ Forall (λ c, isword nonwords c = true) (take n rest)
       ∧ ∀ c, rest !! n = Some c → isword nonwords c = false.
Proof.
  revert x. induction rest as [|c rest IH]; intros x; simpl.
  - exists 0%nat. split_and!; [lia | done | done].
  - destruct (isword nonwords c) eqn:Hc.
    + destruct (IH (S x)) as (n & -> & Hn & Hstop). exists (S n).
      split_and!; [lia | by constructor | done].
    + exists 0%nat. split_and!; [lia | done |]. simpl. by intros ? [= <-].
Qed.

(** X5: [get_word] answers nothing exactly when the caret line does not
    exist or the caret column is not in [1 .. len(line)]; a caret in
    column 0 gives no word, whatever follows it. *)
Theorem get_word_None_iff (nonwords : str) (ed : Editor) (x y : Z) :
  get_word nonwords ed x y = None
  ↔ y < 0 ∨ len (ed_lines ed) ≤ y
    ∨ ∃ s, ed_lines ed !! Z.to_nat y = Some s ∧ (x ≤ 0 ∨ len s < x).
Proof.
  unfold get_word, len.
  destruct ((0 <=? y) && (y <? Z.of_nat (length (ed_lines ed)))) eqn:Hy; simpl.
  - apply andb_true_iff in Hy as [Hy1%Z.leb_le Hy2%Z.ltb_lt].
    destruct (lookup_lt_is_Some_2 (ed_lines ed) (Z.to_nat y)) as [s Hs]; [lia|].
    rewrite Hs.
    destruct ((0 <? x) && (x <=? Z.of_nat (length s))) eqn:Hx; simpl.
    + apply andb_true_iff in Hx as [Hx1%Z.ltb_lt Hx2%Z.leb_le].
      split; [done|]. intros [?|[?|(s' & Hs' & Hx)]]; [lia..|].
      assert (s' = s) as -> by congruence. lia.
    + split; [intros _|done]. right. right. exists s. split; [done|].
      apply andb_false_iff in Hx as [Hx%Z.ltb_ge|Hx%Z.leb_gt]; lia.
  - split; [intros _|done].
    apply andb_false_iff in Hy as [Hy%Z.leb_gt|Hy%Z.ltb_ge]; [by left | right; by left].
Qed.

(** X6: the two parts [get_word] returns are the maximal run of word
    characters around the caret: the line is [pre ++ text1 ++ text2 ++ post]
    with the caret between the parts, both parts hold word characters only,
    [pre] does not end and [post] does not begin with a word character. *)
Theorem get_word_maximal_run (nonwords : str) (ed : Editor) (x y : Z) (text1 text2 : str) :
  get_word nonwords ed x y = Some (text1, text2) →
  ∃ s pre post : str,
    0 ≤ y ∧ ed_lines ed !! Z.to_nat y = Some s
    ∧ s = pre ++ text1 ++ text2 ++ post
    ∧ len (pre ++ text1) = x
    ∧ Forall (λ c, isword nonwords c = true) (text1 ++ text2)
    ∧ (∀ c, last pre = Some c → isword nonwords c = false)
    ∧ (∀ c, head post = Some c → isword nonwords c = false).
Proof.
  unfold get_word, len.
  destruct ((0 <=? y) && _) eqn:Hy; simpl; [|done].
  apply andb_true_iff in Hy as [Hy1%Z.leb_le _].
  destruct (ed_lines ed !! Z.to_nat y) as [s|] eqn:Hs; [|done].
  destruct ((0 <? x) && _) eqn:Hx; simpl; [|done].
  apply andb_true_iff in Hx as [Hx1%Z.ltb_lt Hx2%Z.leb_le].
  set (n := Z.to_nat x).
  assert (n ≤ length s)%nat as Hn by lia.
  pose proof (scan_left_le nonwords s n) as Hle.
  destruct (scan_right_stop nonwords (drop n s) n) as (m & -> & Hrun & Hstop).
  set (x0 := scan_left nonwords s n) in *.
  intros [= <- <-]. unfold slice.
  replace (n + m - n)%nat with m by lia.
  exists s, (take x0 s), (drop (n + m) s).
  assert (take x0 s ++ take (n - x0) (drop x0 s) = take n s) as Hleft.
  { rewrite take_take_drop. f_equal. lia. }
  split_and!; [done..| | | | |].
  - rewrite (assoc_L (++) (take x0 s)), Hleft.
    rewrite (assoc_L (++) (take n s)), take_take_drop.
    by rewrite take_drop.
  - rewrite Hleft, length_take. lia.
  - apply Forall_app. split; [|done].
    apply Forall_forall. intros c (i & Hi & Hlt)%elem_of_take.
    rewrite lookup_drop in Hi.
    eapply (scan_left_isword nonwords s n); [|done]. fold x0. lia.
  - intros c Hc. destruct (decide (x0 = 0)%nat) as [Hz|Hz].
    { rewrite Hz in Hc. done. }
    apply (scan_left_stop nonwords s n); [fold x0; lia|]. fold x0.
    rewrite last_lookup, length_take in Hc.
    rewrite lookup_take_lt in Hc by lia.
    rewrite <- Hc. f_equal. lia.
  - intros c Hc. apply Hstop. rewrite lookup_drop.
    rewrite <- head_lookup in Hc || (rewrite head_lookup, lookup_drop in Hc).
    rewrite <- Hc. f_equal. lia.
Qed.

(** ** The line grammar of dictionary files *)

(** X7: a line that matches the line grammar is made of its four groups:
    a non-empty trigger without whitespace, one whitespace character, a
    non-empty word without parenthesis, bar or blank, arguments without bar,
    and, after a bar, a description without line feed (a line feed may end
    the line). *)
Theorem acp_match_groups (line pre word args descr : str) :
  acp_match line = Some (pre, word, args, descr) →
  ∃ (ws : ascii) (bar nl : str),
    line = pre ++ ws :: word ++ args ++ bar ++ descr ++ nl
    ∧ is_space ws = true
    ∧ pre ≠ [] ∧ Forall (λ c, is_space c = false) pre
    ∧ word ≠ [] ∧ Forall (λ c, c ∉ lit "(| ") word
    ∧ ("|"%char ∉ args)
    ∧ (bar = lit "|" ∨ (bar = [] ∧ descr = [] ∧ nl = []))
    ∧ (newline ∉ descr)
    ∧ (nl = [] ∨ nl = [newline]).
Proof. apply acp_match_fields. Qed.


(** ** Settings *)


(** ** Escaping *)

Lemma escape_regex_app (a b : str) :
  escape_regex (a ++ b) = escape_regex a ++ escape_regex b.
Proof.
  induction a as [|c a IH]; simpl; [done|].
  by rewrite IH, <- !app_assoc.
Qed.

(** X10: [escape_regex] puts a backslash before each character of its
    list and changes nothing else: in its result every listed character
    stands directly after a backslash, the result is longer than the text by
    the number of listed characters in it, and reading the backslashes away
    gives the text back, provided the text holds no backslash itself (a
    backslash is not in the list and is passed on bare). *)
Theorem escape_regex_round_trip (s : str) :
  (∀ (i : nat) (c : ascii),
     escape_regex s !! i = Some c → c ∈ lit "$^#-+|.?*()[]{}" →
     ∃ j, i = S j ∧ escape_regex s !! j = Some "\"%char)
  ∧ length (escape_regex s)
    = (length s + length (filter (λ c, c ∈ lit "$^#-+|.?*()[]{}") s))%nat
  ∧ ("\"%char ∉ s → unescape (escape_regex s) = s).
Proof.
  split_and!.
  - induction s as [|ch s IH]; intros i c; [done|]. cbn [escape_regex].
    case_bool_decide as Hspecial; simpl.
    + destruct i as [|[|i]]; simpl.
      * intros [= <-] Hin. exfalso. revert Hin. compute_done.
      * intros [= <-] _. by exists 0%nat.
      * intros Hi Hin. destruct (IH i c Hi Hin) as (j & -> & Hj).
        by exists (S (S j)).
    + destruct i as [|i]; simpl.
      * by intros [= <-].
      * intros Hi Hin. destruct (IH i c Hi Hin) as (j & -> & Hj).
        by exists (S j).
  - induction s as [|ch s IH]; [done|]. cbn [escape_regex].
    case_bool_decide as Hspecial.
    + rewrite filter_cons_True by done. cbn [app length]. rewrite IH. lia.
    + rewrite filter_cons_False by done. cbn [app length]. rewrite IH. lia.
  - induction s as [|c s IH]; [done|].
    intros [Hc Hs]%not_elem_of_cons. cbn [escape_regex].
    case_bool_decide as Hspecial; simpl.
    + by rewrite IH.
    + rewrite bool_decide_eq_false_2 by done. by rewrite IH.
Qed.

(** ** Scanning a tab *)

(** X11: the tokens of a tab are listed without repetition; a tab with more
    lines than the cap gives none and its text is not scanned; otherwise
    the tokens are exactly those the scanner finds. *)
Theorem get_words_list_tokens (host : Host) (cfg : Config) (ed : Editor)
    (regex : str) (l : list str) :
  get_words_list host cfg ed regex = Ok l →
  NoDup l
  ∧ (option_max_lines cfg < len (ed_lines ed) → l = [])
  ∧ (len (ed_lines ed) ≤ option_max_lines cfg →
     ∃ found, re_findall host regex (ed_text_all ed) (negb (option_case_sens cfg))
                = Ok found
              ∧ ∀ w, w ∈ l ↔ w ∈ found).
Proof.
  unfold get_words_list. destruct (_ >? _) eqn:Hcap.
  - intros [= <-]. split_and!; [constructor | done | lia].
  - destruct (re_findall _ _ _ _) as [found|]; simpl; [|done].
    intros [= <-]. split_and!; [apply NoDup_elements | lia |].
    intros _. exists found. split; [done|]. intros w.
    by rewrite elem_of_elements, elem_of_list_to_set.
Qed.

(** ** The lexer gate *)

Lemma startswith_app (p rest : str) : startswith (p ++ rest) p = true.
Proof. apply startswith_prefix. by exists rest. Qed.

Lemma contains_startswith (s sub : str) :
  startswith s sub = true → contains s sub = true.
Proof. intros H. destruct s; cbn [contains]; by rewrite H. Qed.

Lemma contains_infix (a sub b : str) : contains (a ++ sub ++ b) sub = true.
Proof.
  induction a as [|c a IH]; simpl.
  - apply contains_startswith, startswith_app.
  - rewrite IH. apply orb_true_r.
Qed.

Lemma join_entry (sep e : str) (es : list str) :
  e ∈ es → ∃ a b, sep ++ join sep es ++ sep = a ++ (sep ++ e ++ sep) ++ b.
Proof.
  induction es as [|x es IH]; [by intros ?%elem_of_nil|].
  intros [->|Hin]%elem_of_cons.
  - destruct es as [|y es]; simpl.
    + exists [], []. by rewrite app_nil_r.
    + exists [], (join sep (y :: es) ++ sep). simpl.
      by rewrite <- !app_assoc.
  - destruct (IH Hin) as (a & b & Heq).
    destruct es as [|y es]; [by apply elem_of_nil in Hin|].
    exists (sep ++ x ++ a), b.
    change (join sep (x :: y :: es)) with (x ++ sep ++ join sep (y :: es)).
    rewrite <- !app_assoc. do 2 f_equal.
    rewrite <- !app_assoc in Heq. done.
Qed.

Lemma lower_app (a b : str) : lower (a ++ b) = lower a ++ lower b.
Proof. unfold lower. apply fmap_app. Qed.

Lemma lower_join_entry (e : str) (es : list str) :
  e ∈ es →
  contains (lit "," ++ lower (join (lit ",") es) ++ lit ",")
           (lit "," ++ lower e ++ lit ",") = true.
Proof.
  intros (a & b & Heq)%(join_entry (lit ",")).
  assert (lit "," ++ lower (join (lit ",") es) ++ lit ","
          = lower a ++ (lit "," ++ lower e ++ lit ",") ++ lower b) as ->.
  { change (lit "," ++ lower (join (lit ",") es) ++ lit ",")
      with (lower (lit ",") ++ lower (join (lit ",") es) ++ lower (lit ",")).
    rewrite <- !lower_app, Heq, !lower_app. done. }
  apply contains_infix.
Qed.

(** X12: when the [lexers] option is a comma-separated list of names, a
    lexer is allowed if its name is in the list, letter case apart; a tab
    without lexer is allowed if the list has the name "-"; and every lexer
    is allowed if the list has the name "*". *)
Theorem is_lexer_allowed_listed (cfg : Config) (names : list str) (lex : str) :
  option_lexers cfg = join (lit ",") names →
  (lit "*" ∈ names → is_lexer_allowed cfg lex = true)
  ∧ (∀ name, name ∈ names → lex ≠ [] → lower lex = lower name →
             is_lexer_allowed cfg lex = true)
  ∧ (lit "-" ∈ names → is_lexer_allowed cfg [] = true).
Proof.
  intros Hlist. unfold is_lexer_allowed. rewrite Hlist. split_and!.
  - intros (a & b & Heq)%(join_entry (lit ",")). rewrite Heq.
    change (lit "," ++ lit "*" ++ lit ",") with (lit ",*,").
    by rewrite contains_infix.
  - intros name Hin Hlex Hlow. apply orb_true_iff. right.
    destruct lex as [|c lex]; [done|]. rewrite Hlow.
    by apply lower_join_entry.
  - intros Hin. apply orb_true_iff. right.
    by apply (lower_join_entry (lit "-")).
Qed.

(** ** Requests that pass the gates *)

(** A request passes the gates of [get_completions] when the tab has a
    lexer name that is allowed (or the lexer is ignored) and the caret
    stands after a word character that is no digit-led word. From there on
    the function is the scan of the tabs and what follows it. *)
Lemma completion_words_past_gates (host : Host) (cfg : Config) (ed_self : Editor)
    (x0 y0 : Z) (with_acp ignore_lexer : bool) (lex : str) (c : ascii) (rest word2 : str) :
  ed_lexer_file ed_self = Some lex →
  negb ignore_lexer && negb (is_lexer_allowed cfg lex) = false →
  get_word (ed_nonword_chars ed_self) ed_self x0 y0 = Some (c :: rest, word2) →
  is_digit c = false →
  completion_words host cfg ed_self x0 y0 with_acp ignore_lexer
  = match get_editors host cfg ed_self lex with
    | None => Raise TypeError
    | Some editors =>
        match map_result
                (λ e, get_words_list host cfg e
                        (get_regex cfg [c] (ed_nonword_chars ed_self))) editors with
        | Raise e => Raise e
        | Ok words_by_tabs =>
            let tab_titles := (λ e, replace_char "|" "/" (ed_tab_title e)) <$> editors in
            let all_words :=
              match concat words_by_tabs with
              | [] => []
              | _ :: _ => sorted (elements (list_to_set (concat words_by_tabs) : gset str))
              end in
            match (if with_acp then get_acp_words host cfg ed_self (c :: rest) word2
                   else Ok ([], ∅)) with
            | Raise e => Raise e
            | Ok (acp_words, acp_set) =>
                match all_words, acp_words with
                | [], [] => Ok None
                | _, _ =>
                    match filter_result (λ w, is_text_with_begin cfg w (c :: rest))
                            (filter (λ w, (w ∉ acp_set) ∧ w ≠ c :: rest
                                          ∧ w ≠ (c :: rest) ++ word2) all_words) with
                    | Raise e => Raise e
                    | Ok kept =>
                        Ok (Some (words_by_tabs, tab_titles,
                                  filter (plain_word cfg (c :: rest)) kept
                                  ++ filter (λ w, ¬ plain_word cfg (c :: rest) w) kept,
                                  acp_words, c :: rest, word2))
                    end
                end
            end
        end
    end.
Proof.
  intros Hlex Hgate Hword Hdigit. unfold completion_words.
  rewrite Hlex, Hgate, Hword, Hdigit.
  change (request_regex cfg (c :: rest) (ed_nonword_chars ed_self))
    with (Ok (get_regex cfg [c] (ed_nonword_chars ed_self))).
  destruct (get_editors host cfg ed_self lex) as [editors|]; [|done].
  cbn [mbind result_bind].
  destruct (map_result _ editors) as [wbt|]; [|done].
  destruct (if with_acp then _ else _) as [[aw acp_set]|]; [|done].
  unfold mbind, result_bind. cbv beta iota zeta.
  destruct (concat wbt) as [|w ws] eqn:Hcat.
  - destruct aw; [done|].
    destruct (filter_result _ _) as [kept|]; [|done].
    by rewrite split_plain_filter.
  - destruct (sorted _) as [|w' ws'] eqn:Hsorted.
    + destruct aw; [done|].
      destruct (filter_result _ _) as [kept|]; [|done].
      by rewrite split_plain_filter.
    + destruct (filter_result _ _) as [kept|]; [|done].
      by rewrite split_plain_filter.
Qed.

(** X13: for every request that passes the gates, [get_completions] raises
    [TypeError] when the [what_editors] setting is not 0, 1 or 2: the three
    branches of [get_editors] are passed by and the loop runs over
    nothing. *)
Theorem get_completions_unknown_scope (host : Host) (cfg : Config) (ed_self : Editor)
    (x0 y0 : Z) (with_acp ignore_lexer : bool) (lex : str) (c : ascii) (rest word2 : str) :
  ed_lexer_file ed_self = Some lex →
  negb ignore_lexer && negb (is_lexer_allowed cfg lex) = false →
  get_word (ed_nonword_chars ed_self) ed_self x0 y0 = Some (c :: rest, word2) →
  is_digit c = false →
  ¬ (0 ≤ option_what_editors cfg ≤ 2) →
  get_completions host cfg ed_self x0 y0 with_acp ignore_lexer = Raise TypeError.
Proof.
  intros Hlex Hgate Hword Hdigit Hscope. unfold get_completions.
  rewrite (completion_words_past_gates _ _ _ _ _ _ _ lex c rest word2) by done.
  unfold get_editors.
  destruct (Z.eqb_spec (option_what_editors cfg) 0); [lia|].
  destruct (Z.eqb_spec (option_what_editors cfg) 1); [lia|].
  destruct (Z.eqb_spec (option_what_editors cfg) 2); [lia|]. done.
Qed.








Lemma filter_none {A} (P : A → Prop) `{∀ x, Decision (P x)} (l : list A) :
  (∀ x, x ∈ l → ¬ P x) → filter P l = [].
Proof.
  intros H'. destruct (filter P l) as [|x k] eqn:Hf; [done|].
  assert (x ∈ filter P l) as [Hx Hin]%list_elem_of_filter
    by (rewrite Hf; apply elem_of_cons; by left).
  by destruct (H' x Hin).
Qed.

(** X15: a result can be present and empty. When the current tab alone is
    scanned, no dictionary is asked for and the scanner finds tokens, all of
    them the typed word itself (its left part, or left and right parts
    together), [get_completions] returns a result whose two lists are empty
    instead of returning nothing: the test for "no words" comes before the
    typed word is filtered out. *)
Theorem get_completions_empty_result (host : Host) (cfg : Config) (ed_self : Editor)
    (x0 y0 : Z) (ignore_lexer : bool) (lex : str) (c : ascii) (rest word2 : str)
    (found : list str) :
  ed_lexer_file ed_self = Some lex →
  negb ignore_lexer && negb (is_lexer_allowed cfg lex) = false →
  get_word (ed_nonword_chars ed_self) ed_self x0 y0 = Some (c :: rest, word2) →
  is_digit c = false →
  option_what_editors cfg = 0 →
  len (ed_lines ed_self) ≤ option_max_lines cfg →
  re_findall host (get_regex cfg [c] (ed_nonword_chars ed_self))
    (ed_text_all ed_self) (negb (option_case_sens cfg)) = Ok found →
  found ≠ [] →
  (∀ t, t ∈ found → t = c :: rest ∨ t = (c :: rest) ++ word2) →
  get_completions host cfg ed_self x0 y0 false ignore_lexer
  = Ok (Some ([], [], c :: rest, word2)).
Proof.
  intros Hlex Hgate Hword Hdigit Hscope Hcap Hscan Hfound Htyped.
  unfold get_completions.
  rewrite (completion_words_past_gates _ _ _ _ _ _ _ lex c rest word2) by done.
  assert (get_editors host cfg ed_self lex = Some [ed_self]) as ->.
  { unfold get_editors. by rewrite Hscope. }
  set (tokens := elements (list_to_set found : gset str)).
  assert (get_words_list host cfg ed_self
            (get_regex cfg [c] (ed_nonword_chars ed_self)) = Ok tokens) as Hlist.
  { unfold get_words_list.
    replace (len (ed_lines ed_self) >? option_max_lines cfg) with false
      by (symmetry; rewrite Z.gtb_ltb; apply Z.ltb_ge; lia).
    by rewrite Hscan. }
  cbn [map_result]. rewrite Hlist. cbn [mbind result_bind concat]. cbv zeta.
  rewrite app_nil_r.
  assert (∀ t, t ∈ tokens ↔ t ∈ found) as Htokens.
  { intros t. unfold tokens. by rewrite elem_of_elements, elem_of_list_to_set. }
  set (all_words := match tokens with [] => [] | _ :: _ => _ end).
  assert (∀ t, t ∈ all_words ↔ t ∈ found) as Hall.
  { intros t. unfold all_words. destruct tokens eqn:Htok.
    - rewrite <- Htokens. done.
    - unfold sorted. rewrite merge_sort_Permutation, elem_of_elements.
      rewrite elem_of_list_to_set. apply Htokens. }
  assert (all_words ≠ []) as Hne.
  { destruct found as [|t found']; [done|]. intros Hnil.
    assert (t ∈ all_words) as Ht by (apply Hall, elem_of_cons; by left).
    rewrite Hnil in Ht. by apply elem_of_nil in Ht. }
  rewrite (filter_none _ all_words).
  2:{ intros t Ht%Hall (_ & H1 & H2). by destruct (Htyped t Ht). }
  simpl. by destruct all_words.
Qed.

(** ** The completion command *)

Lemma get_word_lengths (nonwords : str) (ed : Editor) (x y : Z) (text1 text2 : str) :
  get_word nonwords ed x y = Some (text1, text2) →
  ∃ line, 0 ≤ y ∧ ed_lines ed !! Z.to_nat y = Some line
          ∧ len text1 ≤ x ∧ x + len text2 ≤ len line.
Proof.
  unfold get_word, len.
  destruct ((0 <=? y) && _) eqn:Hy; simpl; [|done].
  apply andb_true_iff in Hy as [Hy1%Z.leb_le _].
  destruct (ed_lines ed !! Z.to_nat y) as [s|] eqn:Hs; [|done].
  destruct ((0 <? x) && _) eqn:Hx; simpl; [|done].
  apply andb_true_iff in Hx as [Hx1%Z.ltb_lt Hx2%Z.leb_le].
  intros [= <- <-]. exists s. unfold slice.
  rewrite !length_take, !length_drop. split_and!; [done..|lia|lia].
Qed.

Lemma completion_words_word1 (host : Host) (cfg : Config) (ed_self : Editor)
    (x0 y0 : Z) (with_acp ignore_lexer : bool) (words_by_tabs : list (list str))
    (tab_titles words acp_words : list str) (word1 word2 : str) :
  completion_words host cfg ed_self x0 y0 with_acp ignore_lexer
    = Ok (Some (words_by_tabs, tab_titles, words, acp_words, word1, word2)) →
  word1 ≠ [].
Proof.
  intros H. pose proof H as Hshape.
  apply completion_words_shape in Hshape as (_ & _ & _ & Hword & _).
  intros ->. unfold completion_words in H.
  destruct (ed_lexer_file ed_self); [|done].
  destruct (negb ignore_lexer && _); [done|].
  by rewrite Hword in H.
Qed.

(** X16: when [on_complete] calls [complete(text, len1, len2)] there is one
    caret and no selection, and the span to be replaced lies on the caret
    line around the caret: [1 <= len1 <= x0] and
    [x0 + len2 <= len(line)]. *)
Theorem on_complete_span (host : Host) (cfg : Config) (ed_self : Editor)
    (carets : list (Z * Z * Z * Z)) (text : str) (len1 len2 : Z) :
  on_complete host cfg ed_self carets = Ok (Some (text, len1, len2)) →
  ∃ (x0 y0 x1 y1 : Z) (line : str),
    carets = [(x0, y0, x1, y1)] ∧ y1 < 0
    ∧ 0 ≤ y0 ∧ ed_lines ed_self !! Z.to_nat y0 = Some line
    ∧ 1 ≤ len1 ≤ x0 ∧ 0 ≤ len2 ∧ x0 + len2 ≤ len line.
Proof.
  unfold on_complete.
  destruct (len carets =? 1) eqn:Hone; simpl; [|done].
  destruct carets as [|[[[x0 y0] x1] y1] [|]]; [done| |].
  2:{ apply Z.eqb_eq in Hone. unfold len in Hone. simpl in Hone. lia. }
  destruct (y1 >=? 0) eqn:Hsel; [done|].
  destruct (get_completions _ _ _ _ _ _ _) as [[[[[wd aw] w1] w2]|]|] eqn:Hres;
    simpl; [|done..].
  intros [= <- <- <-].
  apply get_completions_words in Hres as (wbt & titles & words & Hwords & _).
  pose proof (completion_words_word1 _ _ _ _ _ _ _ _ _ _ _ _ _ Hwords) as Hw1.
  apply completion_words_shape in Hwords as (_ & _ & _ & Hword & _).
  apply get_word_lengths in Hword as (line & Hy & Hline & Hleft & Hright).
  exists x0, y0, x1, y1, line.
  assert (1 ≤ len w1) by (destruct w1; [done | unfold len; simpl; lia]).
  assert (0 ≤ len w2) by (unfold len; lia).
  split_and!; try done. rewrite Z.geb_leb in Hsel. apply Z.leb_gt in Hsel. lia.
Qed.

(** ** Dictionary candidates *)

Lemma map_result_length {A B} (f : A → result B) (l : list A) (ys : list B) :
  map_result f l = Ok ys → length ys = length l.
Proof.
  revert ys. induction l as [|x l IH]; simpl; intros ys; [by intros [= <-]|].
  destruct (f x); simpl; [|done].
  destruct (map_result f l) as [ys'|]; simpl; [|done].
  intros [= <-]. simpl. f_equal. by apply IH.
Qed.

(** X17: the word set that [get_acp_words] returns beside its candidates is
    exactly the set of the words of these candidates, and a dictionary file
    gives at most one candidate for each of its lines. *)
Theorem get_acp_words_set (host : Host) (cfg : Config) (ed : Editor)
    (word1 word2 : str) (acp_words : list str) (acp_set : gset str) :
  get_acp_words host cfg ed word1 word2 = Ok (acp_words, acp_set) →
  ∃ entries : list (str * str * str * str),
    acp_words ≡ₚ entry_text <$> entries
    ∧ (∀ w, w ∈ acp_set ↔ ∃ e, e ∈ entries ∧ entry_word e = w)
    ∧ (length acp_words ≤ length (dictionary_lines host ed true))%nat.
Proof.
  intros H.
  destruct (get_acp_words_entries host cfg ed word1 word2 true acp_words acp_set H)
    as (parsed & Hparsed & -> & ->).
  exists (omap id parsed). split_and!.
  - by rewrite <- fmap_app, filter_app_complement.
  - intros w. rewrite elem_of_list_to_set, list_elem_of_fmap. split.
    + intros (e & -> & He). by exists e.
    + intros (e & He & <-). by exists e.
  - rewrite <- fmap_app, length_fmap, filter_app_complement.
    rewrite <- (map_result_length _ _ _ Hparsed).
    clear. induction parsed as [|[e|] parsed IH]; simpl in *;
      [lia | apply le_n_S, IH | apply Nat.le_le_succ_r, IH].
Qed.

(** ** Fuzzy matching, continued *)

(** X18: fuzzy matching is reflexive and transitive, the empty prefix
    matches every candidate, and on text of the ASCII range, where raising
    keeps the length, a prefix longer than the candidate never matches. *)
Theorem is_fuzzy_match_preorder :
  (∀ s, is_fuzzy_match s s = true)
  ∧ (∀ a b c, is_fuzzy_match a b = true → is_fuzzy_match b c = true →
              is_fuzzy_match a c = true)
  ∧ (∀ s, is_fuzzy_match s [] = true)
  ∧ (∀ s p, ascii_text s → ascii_text p →
            (length s < length p)%nat → is_fuzzy_match s p = false).
Proof.
  split_and!.
  - intros s. by apply is_fuzzy_match_sublist.
  - intros a b c Hab%is_fuzzy_match_sublist Hbc%is_fuzzy_match_sublist.
    apply is_fuzzy_match_sublist. by etrans.
  - intros s. apply is_fuzzy_match_sublist, sublist_nil_l.
  - intros s p _ _ Hlen. destruct (is_fuzzy_match s p) eqn:Hm; [|done].
    apply is_fuzzy_match_sublist, sublist_length in Hm.
    unfold upper in Hm. rewrite !length_fmap in Hm. lia.
Qed.

(** ** Decoration *)

(** X19: when the tabs are not searched for provenance ([what_editors] is
    neither 1 nor 2) the decorated text names its word: two words with the
    same decorated text are the same word. *)
Theorem decorate_injective (cfg : Config) (words_by_tabs : list (list str))
    (tab_titles : list str) (w w' : str) :
  option_what_editors cfg ≠ 1 → option_what_editors cfg ≠ 2 →
  decorate cfg words_by_tabs tab_titles w = decorate cfg words_by_tabs tab_titles w' →
  w = w'.
Proof.
  intros H1 H2. unfold decorate, search_tab.
  destruct (Z.eqb_spec (option_what_editors cfg) 1); [done|].
  destruct (Z.eqb_spec (option_what_editors cfg) 2); [done|].
  simpl. rewrite !app_nil_r. unfold get_prefix.
  destruct (startswith w (lit "$")), (startswith w' (lit "$")); try done.
  - intros [= H]. done.
  - intros [= H]. done.
Qed.

(** ** The scan pattern, continued *)

(** X20: the character class of the scan pattern is the word class followed
    by the default non-word characters that the non-word setting of the tab
    does not name, each escaped as [escape_regex] does; with the default
    setting, or any setting that names them all, the class is the word class
    alone. *)
Theorem w_content_class (nonwords : str) :
  w_content nonwords
  = lit "\w" ++ escape_regex (filter (λ ch, ch ∉ nonwords) NONWORDS_DEFAULT)
  ∧ ((∀ ch, ch ∈ NONWORDS_DEFAULT → ch ∈ nonwords) → w_content nonwords = lit "\w").
Proof.
  assert (∀ (l acc : str),
            foldl (λ w_content ch,
                     if bool_decide (ch ∉ nonwords) then w_content ++ escape_regex [ch]
                     else w_content) acc l
            = acc ++ escape_regex (filter (λ ch, ch ∉ nonwords) l)) as Hfold.
  { induction l as [|ch l IH]; intros acc; simpl; [by rewrite app_nil_r|].
    rewrite IH. case_bool_decide as Hch.
    - rewrite filter_cons_True by done.
      change (ch :: filter (λ ch0, ch0 ∉ nonwords) l)
        with ([ch] ++ filter (λ ch0, ch0 ∉ nonwords) l).
      by rewrite escape_regex_app, <- app_assoc.
    - rewrite filter_cons_False; [done | by intros Hno]. }
  split; [apply Hfold|]. intros Hall. unfold w_content. rewrite Hfold.
  rewrite filter_none; [done|]. intros ch Hch Hno. by apply Hno, Hall.
Qed.

Lemma tabs_found_titles (w : str) (all_titles : list str) (words_by_tabs : list (list str))
    (tab_titles : list str) (k : nat) :
  drop k all_titles = tab_titles → length tab_titles = length words_by_tabs →
  (λ tf, default [] (all_titles !! tf))
    <$> (imap (λ i words_by_tabs_,
                 if bool_decide (w ∈ words_by_tabs_) then [(k + i)%nat] else [])
              words_by_tabs ≫= id)
  = (filter (λ p, w ∈ p.2) (zip tab_titles words_by_tabs)).*1.
Proof.
  revert tab_titles k.
  induction words_by_tabs as [|tokens rest IH]; intros tab_titles k Hdrop Hlen.
  { by destruct tab_titles. }
  destruct tab_titles as [|title titles]; [done|].
  rewrite imap_cons, bind_cons, fmap_app. simpl zip.
  assert (all_titles !! k = Some title) as Hk.
  { rewrite <- (Nat.add_0_r k), <- lookup_drop, Hdrop. done. }
  erewrite (imap_ext _ (λ i words_by_tabs_,
              if bool_decide (w ∈ words_by_tabs_) then [(S k + i)%nat] else [])).
  2:{ intros i x _. simpl. by rewrite Nat.add_succ_r. }
  rewrite (IH titles (S k)).
  2:{ replace (S k) with (k + 1)%nat by lia.
      by rewrite <- (drop_drop all_titles 1 k), Hdrop. }
  2:{ simpl in Hlen. lia. }
  unfold id at 1. case_bool_decide as Hin.
  - rewrite filter_cons_True by done. simpl. by rewrite Nat.add_0_r, Hk.
  - by rewrite filter_cons_False by done.
Qed.

(** X21: when the tabs are searched for provenance ([what_editors] is 1 or
    2), [search_tab] gives nothing for a word that no tab holds and
    otherwise a bar followed by the titles of the tabs that hold the word,
    in tab order, separated by a semicolon and a blank. *)
Theorem search_tab_titles (cfg : Config) (words_by_tabs : list (list str))
    (tab_titles : list str) (w : str) :
  length tab_titles = length words_by_tabs →
  option_what_editors cfg = 1 ∨ option_what_editors cfg = 2 →
  search_tab cfg words_by_tabs tab_titles w
  = match (filter (λ p, w ∈ p.2) (zip tab_titles words_by_tabs)).*1 with
    | [] => []
    | found => lit "|" ++ join (lit "; ") found
    end.
Proof.
  intros Hlen Hmode. unfold search_tab.
  assert ((option_what_editors cfg =? 1) || (option_what_editors cfg =? 2) = true) as ->.
  { destruct Hmode as [-> | ->]; done. }
  rewrite <- (tabs_found_titles w tab_titles words_by_tabs tab_titles 0) by done.
  simpl. by destruct (imap _ _ ≫= id).
Qed.

(** ** Initials of an underscore-separated name *)

Lemma drop_while_id (f : ascii → bool) (s : str) :
  (∀ c, head s = Some c → f c = false) → drop_while f s = s.
Proof. destruct s as [|c s]; simpl; [done|]. intros H. by rewrite (H c). Qed.

Lemma strip_char_id (ch : ascii) (s : str) :
  head s ≠ Some ch → last s ≠ Some ch → strip_char ch s = s.
Proof.
  intros Hhead Hlast. unfold strip_char.
  rewrite (drop_while_id _ s).
  2:{ intros c Hc. apply bool_decide_eq_false. intros ->. done. }
  rewrite (drop_while_id _ (reverse s)).
  2:{ intros c Hc. rewrite head_reverse in Hc.
      apply bool_decide_eq_false. intros ->. done. }
  apply reverse_involutive.
Qed.

Lemma join_last (sep : str) (ws : list str) :
  ws ≠ [] → Forall (λ w, w ≠ []) ws →
  ∃ w c, w ∈ ws ∧ last w = Some c ∧ last (join sep ws) = Some c.
Proof.
  induction ws as [|x ws IH]; [done|]. intros _ [Hx Hws]%Forall_cons.
  destruct ws as [|y ws].
  - destruct (last x) as [c|] eqn:Hc.
    + exists x, c. split_and!; [apply elem_of_cons; by left | done..].
    + apply last_None in Hc. done.
  - destruct (IH ltac:(done) Hws) as (w & c & Hw & Hc & Hjoin).
    exists w, c. split_and!; [apply elem_of_cons; by right | done |].
    change (join sep (x :: y :: ws)) with (x ++ sep ++ join sep (y :: ws)).
    by rewrite !last_app, Hjoin.
Qed.

Lemma join_head (sep : str) (c : ascii) (w : str) (ws : list str) :
  head (join sep ((c :: w) :: ws)) = Some c.
Proof. by destruct ws. Qed.

Lemma findall_words_go_word (cur w rest : str) :
  "_"%char ∉ w → findall_words_go cur (w ++ rest) = findall_words_go (cur ++ w) rest.
Proof.
  revert cur. induction w as [|c w IH]; intros cur Hw; simpl.
  - by rewrite app_nil_r.
  - apply not_elem_of_cons in Hw as [Hc Hw].
    rewrite bool_decide_eq_false_2 by done.
    rewrite IH by done. by rewrite <- app_assoc.
Qed.

Lemma findall_words_go_sep (cur rest : str) :
  cur ≠ [] → findall_words_go cur ("_"%char :: rest) = cur :: findall_words_go [] rest.
Proof. intros Hcur. by destruct cur. Qed.

Lemma findall_words_join (ws : list str) :
  Forall (λ w, w ≠ [] ∧ "_"%char ∉ w) ws → findall_words (join (lit "_") ws) = ws.
Proof.
  unfold findall_words. induction ws as [|x ws IH]; [done|].
  intros [[Hx Hx'] Hws]%Forall_cons. destruct ws as [|y ws].
  - simpl join. rewrite <- (app_nil_r x) at 1.
    rewrite findall_words_go_word by done. simpl. by destruct x.
  - change (join (lit "_") (x :: y :: ws))
      with (x ++ "_"%char :: join (lit "_") (y :: ws)).
    rewrite findall_words_go_word by done.
    rewrite findall_words_go_sep by done. by rewrite (IH Hws).
Qed.

Lemma lower_join (sep : str) (ws : list str) :
  lower (join sep ws) = join (lower sep) (lower <$> ws).
Proof.
  induction ws as [|x ws IH]; [done|]. destruct ws as [|y ws]; [done|].
  change (join sep (x :: y :: ws)) with (x ++ sep ++ join sep (y :: ws)).
  rewrite !lower_app, IH. done.
Qed.

Lemma omap_head_lookup (ws : list str) (i : nat) (c : ascii) (w : str) :
  Forall (λ w, w ≠ []) ws → ws !! i = Some (c :: w) → omap head ws !! i = Some c.
Proof.
  revert i. induction ws as [|x ws IH]; intros i; [done|].
  intros [Hx Hws]%Forall_cons. destruct x as [|c' x]; [done|].
  destruct i as [|i]; simpl.
  - by intros [= -> ->].
  - by apply IH.
Qed.

Lemma omap_head_length (ws : list str) :
  Forall (λ w, w ≠ []) ws → length (omap head ws) = length ws.
Proof.
  induction 1 as [|x ws Hx Hws IH]; [done|].
  destruct x; [done|]. simpl. f_equal. exact IH.
Qed.

Lemma omap_head_lower (ws : list str) :
  lower (omap head ws) = omap head (lower <$> ws).
Proof.
  induction ws as [|x ws IH]; [done|]. destruct x as [|c x]; simpl; [done|].
  unfold lower in *. simpl. f_equal. exact IH.
Qed.

(** The underscore-split block accepts the initials of the first [k]
    segments of a name made of non-empty segments joined by underscores. *)
Lemma underscore_split_path_initials (cfg : Config) (ws : list str) (k : nat) :
  Forall (λ w, w ≠ [] ∧ "_"%char ∉ w) ws → (2 ≤ length ws)%nat → (k ≤ length ws)%nat →
  ∃ begin', underscore_split_path cfg (join (lit "_") ws) (omap head (take k ws))
            = Ok (true, begin').
Proof.
  intros Hws Hlen Hk.
  assert (Forall (λ w : str, w ≠ []) ws) as Hne
    by (eapply Forall_impl; [exact Hws|]; by intros w [? _]).
  set (s := join (lit "_") ws).
  assert (strip_char "_" s = s) as Hstrip.
  { apply strip_char_id.
    - destruct ws as [|[|c w] ws]; [done| |].
      + by apply Forall_cons in Hne as [? _].
      + unfold s. rewrite join_head. intros [= ->].
        apply Forall_cons in Hws as [[_ Hw] _]. apply Hw, elem_of_cons. by left.
    - destruct (join_last (lit "_") ws) as (w & c & Hw & Hc & Hlast);
        [intros ->; simpl in Hlen; lia | done |].
      fold s in Hlast. rewrite Hlast. intros [= ->].
      rewrite Forall_forall in Hws. destruct (Hws w Hw) as [_ Hno].
      by apply Hno, last_Some_elem_of. }
  assert ("_"%char ∈ s) as Hin.
  { unfold s. destruct ws as [|x [|y ws]]; [simpl in Hlen; lia..|].
    change (join (lit "_") (x :: y :: ws))
      with (x ++ "_"%char :: join (lit "_") (y :: ws)).
    apply elem_of_app. right. apply elem_of_cons. by left. }
  unfold underscore_split_path. rewrite Hstrip.
  rewrite bool_decide_eq_true_2 by done. cbv zeta.
  set (ws' := if option_case_sens cfg then ws else lower <$> ws).
  assert ((if option_case_sens cfg then s else lower s) = join (lit "_") ws') as ->.
  { unfold ws', s. destruct (option_case_sens cfg); [done|]. by rewrite lower_join. }
  assert ((if option_case_sens cfg then omap head (take k ws)
           else lower (omap head (take k ws))) = omap head (take k ws')) as ->.
  { unfold ws'. destruct (option_case_sens cfg); [done|].
    by rewrite omap_head_lower, fmap_take. }
  assert (Forall (λ w, w ≠ [] ∧ "_"%char ∉ w) ws') as Hws'.
  { unfold ws'. destruct (option_case_sens cfg); [done|].
    apply Forall_fmap. eapply Forall_impl; [exact Hws|].
    intros w [Hw Hno]. simpl. split.
    - by destruct w.
    - unfold lower. intros (c & Hc%eq_sym%lower_char_underscore & Hcw)%list_elem_of_fmap.
      by subst c. }
  assert (length ws' = length ws) as Hlen'.
  { unfold ws'. destruct (option_case_sens cfg); [done | apply length_fmap]. }
  assert (Forall (λ w : str, w ≠ []) ws') as Hne'
    by (eapply Forall_impl; [exact Hws'|]; by intros w [? _]).
  rewrite findall_words_join by done.
  assert (length (omap head (take k ws')) = k) as Hbl.
  { rewrite omap_head_length by by apply Forall_take. rewrite length_take. lia. }
  rewrite Hbl. replace (k <=? length ws')%nat with true
    by (symmetry; apply Nat.leb_le; lia).
  rewrite (proj2 (for_else_true _ (seq 0 k))).
  { simpl. by eauto. }
  intros i [_ Hi]%elem_of_seq. simpl in Hi.
  destruct (lookup_lt_is_Some_2 ws' i) as [w Hw]; [lia|].
  assert (w ≠ []) as Hwne
    by (rewrite Forall_forall in Hne'; by eapply Hne', list_elem_of_lookup_2).
  destruct w as [|c w]; [done|].
  assert (omap head (take k ws') !! i = Some c) as Hc.
  { eapply omap_head_lookup; [by apply Forall_take|].
    by rewrite lookup_take_lt. }
  unfold getitem. rewrite Hc, Hw. simpl. by rewrite bool_decide_eq_true_2.
Qed.

(** X22: the first characters of the first segments of an
    underscore-separated name match it ("PLF", "PL" and "P" match
    "PROP_LEXER_FILE"): with the underscore-split option on and the fuzzy
    option off, [is_text_with_begin] accepts a name made of at least two
    non-empty segments of the ASCII range joined by underscores for the
    initials of its first [k >= 1] segments. (Outside the ASCII range
    lowering the initials together need not give the lowered initials of the
    lowered name.) *)
Theorem underscore_initials_accepted (cfg : Config) (ws : list str) (k : nat) :
  option_fuzzy cfg = false → option_underscore_split cfg = true →
  Forall ascii_text ws →
  Forall (λ w, w ≠ [] ∧ "_"%char ∉ w) ws →
  (2 ≤ length ws)%nat → (1 ≤ k ≤ length ws)%nat →
  is_text_with_begin cfg (join (lit "_") ws) (omap head (take k ws)) = Ok true.
Proof.
  intros Hfuzzy Hus _ Hws Hlen [Hk1 Hk2].
  destruct (underscore_split_path_initials cfg ws k Hws Hlen Hk2) as [begin' Hpath].
  assert (Forall (λ w : str, w ≠ []) ws) as Hne
    by (eapply Forall_impl; [exact Hws|]; by intros w [? _]).
  unfold is_text_with_begin. rewrite Hfuzzy, Hus, orb_true_r, Hpath.
  destruct (option_case_split cfg); [|done].
  destruct (case_split_path_Ok (join (lit "_") ws) (omap head (take k ws)))
    as [b ->]; [| |by destruct b].
  - destruct ws as [|[|c w] ws]; [simpl in Hlen; lia | |].
    + by apply Forall_cons in Hne as [? _].
    + intros Hnil. pose proof (join_head (lit "_") c w ws) as Hh.
      by rewrite Hnil in Hh.
  - intros Hnil. apply (f_equal length) in Hnil.
    rewrite omap_head_length in Hnil by by apply Forall_take.
    rewrite length_take in Hnil. simpl in Hnil. lia.
Qed.

(** ** Initials of a camel-case name *)

Lemma findall_camel_go_tail (seg tail rest : str) :
  Forall (λ x, is_AZ x = false) tail →
  findall_camel_go (Some seg) (tail ++ rest) = findall_camel_go (Some (seg ++ tail)) rest.
Proof.
  intros Htail. revert seg. induction Htail as [|x tail Hx Htail IH]; intros seg; simpl.
  - by rewrite app_nil_r.
  - rewrite Hx, IH. by rewrite <- app_assoc.
Qed.

Lemma findall_camel_go_segments (cur : str) (segs : list str) :
  Forall camel_segment segs →
  findall_camel_go (Some cur) (concat segs) = cur :: segs.
Proof.
  intros Hsegs. revert cur.
  induction Hsegs as [|seg segs (c & tail & -> & Hc & Htail) Hsegs IH]; intros cur;
    [done|].
  simpl. rewrite Hc. f_equal.
  rewrite findall_camel_go_tail by done. apply IH.
Qed.

Lemma findall_camel_segments (segs : list str) :
  Forall camel_segment segs → findall_camel (concat segs) = segs.
Proof.
  unfold findall_camel. intros Hsegs.
  destruct Hsegs as [|seg segs (c & tail & -> & Hc & Htail) Hsegs]; [done|].
  simpl. rewrite bool_decide_eq_false_2.
  - rewrite findall_camel_go_tail by done. by apply findall_camel_go_segments.
  - unfold is_AZ in Hc. apply andb_true_iff in Hc as [Hc%N.leb_le _]. lia.
Qed.

Lemma concat_singletons (s : str) : concat ((λ c, [c]) <$> s) = s.
Proof. induction s as [|c s IH]; simpl; [done|]. f_equal. exact IH. Qed.

(** X23: the capital letters that open the first segments of a camel-case
    name match it ("PLF" matches "PropLexerFile"): with the case-split
    option on and the fuzzy option off, [is_text_with_begin] accepts a name
    made of camel-case segments for the initials of its first [k >= 1]
    segments. *)
Theorem camel_initials_accepted (cfg : Config) (segs : list str) (k : nat) :
  option_fuzzy cfg = false → option_case_split cfg = true →
  Forall camel_segment segs → (1 ≤ k ≤ length segs)%nat →
  is_text_with_begin cfg (concat segs) (omap head (take k segs)) = Ok true.
Proof.
  intros Hfuzzy Hsplit Hsegs [Hk1 Hk2].
  assert (Forall (λ w : str, w ≠ []) segs) as Hne.
  { eapply Forall_impl; [exact Hsegs|]. by intros w (c & tail & -> & _). }
  set (begin := omap head (take k segs)).
  assert (∀ i c, begin !! i = Some c →
                 ∃ tail, segs !! i = Some (c :: tail) ∧ is_AZ c = true) as Hbegin.
  { intros i c Hc.
    assert (i < k)%nat as Hi.
    { apply lookup_lt_Some in Hc. unfold begin in Hc.
      rewrite omap_head_length, length_take in Hc by by apply Forall_take. lia. }
    destruct (lookup_lt_is_Some_2 segs i) as [seg Hseg]; [lia|].
    rewrite Forall_forall in Hsegs.
    destruct (Hsegs seg) as (c' & tail & -> & Hc' & _);
      [by eapply list_elem_of_lookup_2|].
    assert (begin !! i = Some c') as Hc''.
    { eapply omap_head_lookup; [by apply Forall_take|]. by rewrite lookup_take_lt. }
    assert (c' = c) as -> by congruence. by eauto. }
  assert (findall_camel begin = (λ c, [c]) <$> begin) as Hsearch.
  { rewrite <- (concat_singletons begin) at 1. apply findall_camel_segments.
    apply Forall_fmap, Forall_lookup. intros i c Hc.
    destruct (Hbegin i c Hc) as (tail & _ & Hcap). by exists c, []. }
  assert (case_split_path (concat segs) begin = Ok true) as Hpath.
  { apply case_split_path_true. split.
    - destruct segs as [|seg segs']; [simpl in Hk2; lia|].
      destruct k as [|k']; [lia|].
      apply Forall_cons in Hsegs as [(c & tail & -> & _) _].
      exists c, (tail ++ concat segs'), (omap head (take k' segs')). by split.
    - rewrite Hsearch, (findall_camel_segments segs Hsegs). intros i p Hp.
      rewrite list_lookup_fmap in Hp.
      destruct (begin !! i) as [c|] eqn:Hc; [|done]. injection Hp as <-.
      destruct (Hbegin i c Hc) as (tail & Hseg & _).
      exists (c :: tail). split; [done|]. by exists tail. }
  unfold is_text_with_begin. by rewrite Hfuzzy, Hsplit, Hpath.
Qed.

(** ** Instances of the further properties *)

Ltac by_decide := compute_done.

Lemma is_text_with_begin_raises_iff_at_empty :
  ∃ e, is_text_with_begin split_ignoring_case [] (lit "a") = Raise e.
Proof.
  apply (proj1 (is_text_with_begin_raises_iff split_ignoring_case [] (lit "a"))).
  split_and!; [reflexivity | reflexivity | by left].
Defined.

Lemma accepted_is_fuzzy_match_at_PLF :
  is_text_with_begin split_ignoring_case (lit "prop_lexer_file") (lit "PLF") = Ok true
  ∧ is_fuzzy_match (lit "prop_lexer_file") (lit "PLF") = true.
Proof.
  split; [reflexivity|].
  apply (accepted_is_fuzzy_match split_ignoring_case (lit "prop_lexer_file") (lit "PLF"));
    [by_decide | by_decide | discriminate | reflexivity].
Defined.

Lemma plain_match_is_accepted_at_prop :
  is_plain_match split_ignoring_case (lit "PropLexerFile") (lit "prop") = true
  ∧ is_text_with_begin split_ignoring_case (lit "PropLexerFile") (lit "prop") = Ok true.
Proof.
  split; [reflexivity|].
  apply (plain_match_is_accepted split_ignoring_case (lit "PropLexerFile") (lit "prop"));
    [by_decide | by_decide | discriminate | reflexivity].
Defined.

Lemma get_word_maximal_run_at_pl :
  get_word NONWORDS_DEFAULT (plain_tab (lit "a please+b")) 4 0 = Some (lit "pl", lit "ease")
  ∧ ∃ s pre post : str,
      0 ≤ 0 ∧ ed_lines (plain_tab (lit "a please+b")) !! Z.to_nat 0 = Some s
      ∧ s = pre ++ lit "pl" ++ lit "ease" ++ post
      ∧ len (pre ++ lit "pl") = 4
      ∧ Forall (λ c, isword NONWORDS_DEFAULT c = true) (lit "pl" ++ lit "ease")
      ∧ (∀ c, last pre = Some c → isword NONWORDS_DEFAULT c = false)
      ∧ (∀ c, head post = Some c → isword NONWORDS_DEFAULT c = false).
Proof.
  split; [reflexivity|].
  apply (get_word_maximal_run NONWORDS_DEFAULT (plain_tab (lit "a please+b")) 4 0).
  reflexivity.
Defined.

Lemma acp_match_groups_at_foreach :
  ∃ (ws : ascii) (bar nl : str),
    lit "^ foreach(x)|loop over x"
    = lit "^" ++ ws :: lit "foreach" ++ lit "(x)" ++ bar ++ lit "loop over x" ++ nl
    ∧ is_space ws = true
    ∧ lit "^" ≠ [] ∧ Forall (λ c, is_space c = false) (lit "^")
    ∧ lit "foreach" ≠ [] ∧ Forall (λ c, c ∉ lit "(| ") (lit "foreach")
    ∧ ("|"%char ∉ lit "(x)")
    ∧ (bar = lit "|" ∨ (bar = [] ∧ lit "loop over x" = [] ∧ nl = []))
    ∧ (newline ∉ lit "loop over x")
    ∧ (nl = [] ∨ nl = [newline]).
Proof.
  apply (acp_match_groups (lit "^ foreach(x)|loop over x")). reflexivity.
Defined.


Lemma escape_regex_round_trip_at_price :
  ("\"%char ∉ lit "a.b$(c)") ∧ unescape (escape_regex (lit "a.b$(c)")) = lit "a.b$(c)".
Proof.
  split; [by_decide|].
  apply (proj2 (proj2 (escape_regex_round_trip (lit "a.b$(c)")))). by_decide.
Defined.

Lemma get_words_list_tokens_at_demo :
  let l := elements (list_to_set [lit "puzzle"; lit "plenty"; lit "pl"; lit "please";
                                  lit "palace"; lit "plenty"] : gset str) in
  NoDup l
  ∧ (option_max_lines default_options < len (ed_lines demo_tab) → l = [])
  ∧ (len (ed_lines demo_tab) ≤ option_max_lines default_options →
     ∃ found, re_findall demo_host (lit "p") (ed_text_all demo_tab)
                (negb (option_case_sens default_options)) = Ok found
              ∧ ∀ w, w ∈ l ↔ w ∈ found).
Proof.
  apply (get_words_list_tokens demo_host default_options demo_tab (lit "p")).
  reflexivity.
Defined.

Lemma is_lexer_allowed_listed_at_markdown :
  is_lexer_allowed default_options (lit "Markdown") = true.
Proof.
  apply (proj1 (proj2 (is_lexer_allowed_listed default_options
           [lit "-"; lit "ini files ^"; lit "markdown"; lit "restructuredtext";
            lit "properties"] (lit "Markdown") eq_refl)) (lit "markdown")).
  - by_decide.
  - discriminate.
  - reflexivity.
Defined.

Lemma get_completions_unknown_scope_at_three :
  get_completions demo_host (with_scope 3) demo_tab 16 0 true false = Raise TypeError.
Proof.
  apply (get_completions_unknown_scope demo_host (with_scope 3) demo_tab 16 0 true false
           [] "p" (lit "l") []); [reflexivity.. | simpl; lia].
Defined.


Lemma get_completions_empty_result_at_pl :
  get_completions lonely_host default_options demo_tab 16 0 false false
  = Ok (Some ([], [], lit "pl", [])).
Proof.
  apply (get_completions_empty_result lonely_host default_options demo_tab 16 0 false
           [] "p" (lit "l") [] [lit "pl"]); try reflexivity.
  - simpl. unfold len. simpl. lia.
  - discriminate.
  - intros t Ht. left. apply elem_of_cons in Ht as [->|Ht]; [reflexivity|].
    by apply elem_of_nil in Ht.
Defined.

Lemma on_complete_span_at_pl :
  ∃ (x0 y0 x1 y1 : Z) (line : str),
    [(16, 0, 0, -1)] = [(x0, y0, x1, y1)] ∧ y1 < 0
    ∧ 0 ≤ y0 ∧ ed_lines demo_tab !! Z.to_nat y0 = Some line
    ∧ 1 ≤ 2 ≤ x0 ∧ 0 ≤ 0 ∧ x0 + 0 ≤ len line.
Proof.
  apply (on_complete_span demo_host default_options demo_tab [(16, 0, 0, -1)]
           (join [newline] (demo_words ++ demo_acp_words)) 2 0).
  vm_compute. reflexivity.
Defined.

Lemma get_acp_words_set_at_foreach :
  ∃ entries : list (str * str * str * str),
    [format_acp (lit "^") (lit "foreach") (lit "(x)") (lit "loop over x")]
      ≡ₚ entry_text <$> entries
    ∧ (∀ w, w ∈ ({[ lit "foreach" ]} : gset str) ↔ ∃ e, e ∈ entries ∧ entry_word e = w)
    ∧ (length [format_acp (lit "^") (lit "foreach") (lit "(x)") (lit "loop over x")]
       ≤ length (dictionary_lines (host_with [] (lit ".acp") foreach_acp [])
                   (plain_tab []) true))%nat.
Proof.
  apply (get_acp_words_set (host_with [] (lit ".acp") foreach_acp []) default_options
           (plain_tab []) (lit "fo") []).
  vm_compute. reflexivity.
Defined.

Lemma is_fuzzy_match_preorder_at_FooBarBaz :
  is_fuzzy_match (lit "FooBarBaz") (lit "fb") = true
  ∧ is_fuzzy_match (lit "fb") (lit "FooBarBaz") = false.
Proof.
  split.
  - apply (proj1 (proj2 is_fuzzy_match_preorder) (lit "FooBarBaz") (lit "FBB") (lit "fb"));
      reflexivity.
  - apply (proj2 (proj2 (proj2 is_fuzzy_match_preorder)) (lit "fb") (lit "FooBarBaz"));
      [by_decide | by_decide | simpl; lia].
Defined.

Lemma decorate_injective_at_please :
  decorate default_options [] [] (lit "please") = decorate default_options [] [] (lit "please")
  ∧ lit "please" = lit "please".
Proof.
  split; [reflexivity|].
  apply (decorate_injective default_options [] [] (lit "please") (lit "please"));
    [discriminate | discriminate | reflexivity].
Defined.

Lemma w_content_class_at_default : w_content NONWORDS_DEFAULT = lit "\w".
Proof. apply (proj2 (w_content_class NONWORDS_DEFAULT)). intros ch Hch. exact Hch. Defined.

Lemma search_tab_titles_at_plenty :
  search_tab (with_scope 1) [[lit "plenty"]; [lit "pl"]; [lit "please"; lit "plenty"]]
    [lit "a.txt"; lit "b.txt"; lit "c.txt"] (lit "plenty")
  = lit "|a.txt; c.txt".
Proof.
  rewrite (search_tab_titles (with_scope 1)
             [[lit "plenty"]; [lit "pl"]; [lit "please"; lit "plenty"]]
             [lit "a.txt"; lit "b.txt"; lit "c.txt"] (lit "plenty"));
    [vm_compute; reflexivity | reflexivity | by left].
Defined.

Lemma underscore_initials_accepted_at_PL :
  is_text_with_begin split_ignoring_case (lit "PROP_LEXER_FILE") (lit "PL") = Ok true.
Proof.
  apply (underscore_initials_accepted split_ignoring_case
           [lit "PROP"; lit "LEXER"; lit "FILE"] 2);
    [reflexivity | reflexivity | by_decide | by_decide | simpl; lia | simpl; lia].
Defined.

Lemma camel_initials_accepted_at_PLF :
  is_text_with_begin split_ignoring_case (lit "PropLexerFile") (lit "PLF") = Ok true.
Proof.
  apply (camel_initials_accepted split_ignoring_case
           [lit "Prop"; lit "Lexer"; lit "File"] 3);
    [reflexivity | reflexivity | | simpl; lia].
  repeat constructor.
  - exists "P"%char, (lit "rop"). split_and!; [reflexivity.. | by_decide].
  - exists "L"%char, (lit "exer"). split_and!; [reflexivity.. | by_decide].
  - exists "F"%char, (lit "ile"). split_and!; [reflexivity.. | by_decide].
Defined.
